(** * pdf_to_typst_global_grid: clustering, grid assignment and cell formatting

    A shallow embedding of [src/clusters/pdf-tools/pdf_to_typst_global_grid.py].

    - Python [str] values are lists of Unicode code points.
    - Python [float] coordinates are exact rationals ([Q]); comparisons are the
      boolean tests of [QArith], and numeric equality is [Qeq].
    - In-place mutation ([span.is_underlined = True], [list.append],
      [list.sort]) is explicit state passing: the updated value is returned.
    - [grid[row_idx][col_idx]] can raise [IndexError]; the page driver is
      therefore a function into [option]. *)

From Stdlib Require Import String Ascii DecimalString.
From Stdlib Require Import List ZArith NArith QArith Qabs Lia Lqa Bool Sorted.
From Stdlib Require Import Permutation.
Import ListNotations.

Open Scope Q_scope.

(** ** Python strings *)

Definition char := N.
Definition str := list char.

Definition chr (a : ascii) : char := N_of_ascii a.

Definition of_string (s : string) : str := map chr (list_ascii_of_string s).

(** [repr(n)] of a non-negative integer, as used by an f-string. *)
Definition str_of_nat (n : nat) : str :=
  of_string (NilEmpty.string_of_uint (Nat.to_uint n)).

(** The code points for which CPython's [str.isspace] holds
    (bidirectional class WS, B or S, or general category Zs). *)
Definition isspace (c : char) : bool :=
  ((9 <=? c) && (c <=? 13) || (28 <=? c) && (c <=? 32)
   || (c =? 133) || (c =? 160) || (c =? 5760)
   || (8192 <=? c) && (c <=? 8202)
   || (c =? 8232) || (c =? 8233) || (c =? 8239) || (c =? 8287)
   || (c =? 12288))%N.

(** [text.isspace()]: at least one character, all of them whitespace. *)
Definition str_isspace (text : str) : bool :=
  match text with
  | [] => false
  | _ => forallb isspace text
  end.

Fixpoint lstrip (text : str) : str :=
  match text with
  | [] => []
  | c :: rest => if isspace c then lstrip rest else text
  end.

Definition rstrip (text : str) : str := rev (lstrip (rev text)).

Definition strip (text : str) : str := rstrip (lstrip text).

Fixpoint startswith (text prefix : str) : bool :=
  match prefix, text with
  | [], _ => true
  | _ :: _, [] => false
  | p :: prefix', c :: text' => (c =? p)%N && startswith text' prefix'
  end.

Definition str_eqb (a b : str) : bool :=
  if list_eq_dec N.eq_dec a b then true else false.

(** [text.replace(old, new)] for a one-character [old], the only form the
    program uses. *)
Definition replace (old : char) (new : str) (text : str) : str :=
  flat_map (fun c => if (c =? old)%N then new else [c]) text.

(** [sep.join(parts)]. *)
Fixpoint join (sep : str) (parts : list str) : str :=
  match parts with
  | [] => []
  | [p] => p
  | p :: rest => p ++ sep ++ join sep rest
  end.

(** ** The [Span] dataclass *)

Module Span.
Record t := mk {
  text : str;
  x : Q;
  y : Q;
  width : Q;
  height : Q;
  is_bold : bool;
  is_italic : bool;
  is_underlined : bool
}.

(** [span.is_underlined = True] *)
Definition set_underlined (s : t) : t :=
  mk (text s) (x s) (y s) (width s) (height s) (is_bold s) (is_italic s) true.
End Span.

(** ** escape_typst *)

Definition backslash : char := chr "\".

Definition escape_typst (text : str) : str :=
  match text with
  | [] => []
  | _ =>
    let text := replace backslash [backslash; backslash] text in
    let text := replace (chr "#") [backslash; chr "#"] text in
    let text := replace (chr "*") [backslash; chr "*"] text in
    let text := replace (chr "_") [backslash; chr "_"] text in
    let text := replace (chr "[") [backslash; chr "["] text in
    let text := replace (chr "]") [backslash; chr "]"] text in
    let text := replace (chr "<") [backslash; chr "<"] text in
    let text := replace (chr ">") [backslash; chr ">"] text in
    let text := replace (chr "`") [backslash; chr "`"] text in
    let text := replace (chr "$") [backslash; chr "$"] text in
    let text := replace (chr "@") [backslash; chr "@"] text in
    text
  end.

(** ** What the page reader hands over

    [page.get_text("dict")] is a dictionary of blocks, each with a type and
    lines of span dictionaries; [page.get_drawings()] is a list of drawing
    dictionaries, each with a type and a rectangle object. *)

Module SpanData.
Record t := mk {
  text : str;
  bbox : Q * Q * Q * Q;
  flags : Z
}.
End SpanData.

Module Line.
Record t := mk { spans : list SpanData.t }.
End Line.

Module Block.
Record t := mk { type : Z; lines : list Line.t }.
End Block.

(** The reader's rectangle object; [height] is its own attribute. *)
Module Rect.
Record t := mk { x0 : Q; y0 : Q; x1 : Q; y1 : Q; height : Q }.
End Rect.

Module Drawing.
Record t := mk { type : str; rect : Rect.t }.
End Drawing.

Module Page.
Record t := mk { blocks : list Block.t; drawings : list Drawing.t }.
End Page.

(** The dictionaries built by [extract_underlines]. *)
Module Underline.
Record t := mk { y : Q; x0 : Q; x1 : Q }.
End Underline.

Definition Qlt_bool (a b : Q) : bool := negb (Qle_bool b a).

(** ** extract_all_spans *)

Definition span_of_data (span_data : SpanData.t) : Span.t :=
  let '(b0, b1, b2, b3) := SpanData.bbox span_data in
  Span.mk (SpanData.text span_data) b0 b1 (b2 - b0) (b3 - b1)
          (Z.land (SpanData.flags span_data) (2 ^ 4) >? 0)%Z
          (Z.land (SpanData.flags span_data) (2 ^ 1) >? 0)%Z
          false.

Definition keep_span_data (span_data : SpanData.t) : bool :=
  let text := SpanData.text span_data in
  negb (match text with [] => true | _ => false end || str_isspace text).

Definition extract_all_spans (page : Page.t) : list Span.t :=
  flat_map
    (fun block =>
       if (Block.type block =? 0)%Z
       then flat_map
              (fun line =>
                 map span_of_data (filter keep_span_data (Line.spans line)))
              (Block.lines block)
       else [])
    (Page.blocks page).

(** ** extract_underlines *)

Definition underline_of_rect (rect : Rect.t) : Underline.t :=
  Underline.mk ((Rect.y0 rect + Rect.y1 rect) / 2) (Rect.x0 rect) (Rect.x1 rect).

Definition extract_underlines (page : Page.t) : list Underline.t :=
  flat_map
    (fun drawing =>
       if str_eqb (Drawing.type drawing) (of_string "f")
       then if Qlt_bool (Rect.height (Drawing.rect drawing)) 5
            then [underline_of_rect (Drawing.rect drawing)]
            else []
       else [])
    (Page.drawings page).

(** ** mark_underlines *)

(** The test of the two nested [if]s for one underline. *)
Definition underline_hits (span : Span.t) (ul : Underline.t) : bool :=
  let y_bottom := Span.y span + Span.height span in
  if Qle_bool (Qabs (Underline.y ul - y_bottom)) 5
  then
    let span_x_end := Span.x span + Span.width span in
    negb (Qlt_bool (Underline.x1 ul) (Span.x span)
          || Qlt_bool span_x_end (Underline.x0 ul))
  else false.

(** The inner [for ul in underlines] loop, left at its [break]. *)
Fixpoint mark_span (span : Span.t) (underlines : list Underline.t) : Span.t :=
  match underlines with
  | [] => span
  | ul :: rest =>
    if underline_hits span ul
    then Span.set_underlined span
    else mark_span span rest
  end.

Definition mark_underlines (spans : list Span.t) (underlines : list Underline.t)
  : list Span.t :=
  map (fun span => mark_span span underlines) spans.

(** ** cluster_positions *)

(** [set(positions)]: one representative per numeric value.  The iteration
    order of a Python set is unspecified; [sorted] fixes it. *)
Fixpoint set (positions : list Q) : list Q :=
  match positions with
  | [] => []
  | p :: rest => p :: filter (fun q => negb (Qeq_bool p q)) (set rest)
  end.

Fixpoint insert_sorted (p : Q) (l : list Q) : list Q :=
  match l with
  | [] => [p]
  | q :: rest => if Qle_bool p q then p :: l else q :: insert_sorted p rest
  end.

Definition sorted (l : list Q) : list Q := fold_right insert_sorted [] l.

(** [sum(cluster)]: the accumulator starts at 0 and runs left to right. *)
Definition sum (cluster : list Q) : Q := fold_left Qplus cluster 0.

Definition len {A} (l : list A) : Q := inject_Z (Z.of_nat (length l)).

(** One iteration of [for pos in sorted_pos[1:]]. *)
Definition cluster_step (tolerance : Q) (clusters : list (list Q)) (pos : Q)
  : list (list Q) :=
  let current := last clusters [] in
  if Qle_bool (pos - last current 0) tolerance
  then removelast clusters ++ [current ++ [pos]]
  else clusters ++ [[pos]].

(** [sorted_pos[0]] and [sorted_pos[1:]] are [hd] and [tl]; the list is not
    empty when [positions] is not. *)
Definition cluster_positions (positions : list Q) (tolerance : Q) : list Q :=
  match positions with
  | [] => []
  | _ =>
    let sorted_pos := sorted (set positions) in
    let clusters :=
      fold_left (cluster_step tolerance) (tl sorted_pos) [[hd 0 sorted_pos]] in
    map (fun cluster => sum cluster / len cluster) clusters
  end.

(** ** assign_to_cluster *)

(** The [for i, cluster_center in enumerate(clusters)] loop; [None] when it
    runs to its end without returning. *)
Fixpoint assign_loop (value : Q) (clusters : list Q) (tolerance : Q) (i : nat)
  : option nat :=
  match clusters with
  | [] => None
  | cluster_center :: rest =>
    if Qle_bool (Qabs (value - cluster_center)) tolerance
    then Some i
    else assign_loop value rest tolerance (S i)
  end.

Definition assign_to_cluster (value : Q) (clusters : list Q) (tolerance : Q)
  : nat :=
  match assign_loop value clusters tolerance 0 with
  | Some i => i
  | None => 0
  end.

(** ** format_span *)

Definition format_span (span : Span.t) : str :=
  let text := escape_typst (Span.text span) in
  if Span.is_bold span && Span.is_underlined span
  then of_string "#underline[#strong[" ++ text ++ of_string "]]"
  else if Span.is_bold span
  then of_string "#strong[" ++ text ++ of_string "]"
  else if Span.is_italic span
  then of_string "#emph[" ++ text ++ of_string "]"
  else if Span.is_underlined span
  then of_string "#underline[" ++ text ++ of_string "]"
  else text.

(** ** generate_typst_from_pdf: cells *)

Definition bullet : char := 8226%N.        (* U+2022 *)
Definition black_circle : char := 9679%N.  (* U+25CF *)
Definition white_bullet : char := 9702%N.  (* U+25E6 *)

(** [s in ['•', '●', '◦']] *)
Definition is_bullet_glyph (s : str) : bool :=
  str_eqb s [bullet] || str_eqb s [black_circle] || str_eqb s [white_bullet].

(** [for i, span in enumerate(cell)] of the bullet branch, from index [i]. *)
Fixpoint bullet_loop (cell : list Span.t) (i : nat) (formatted_spans : list str)
  : list str :=
  match cell with
  | [] => formatted_spans
  | span :: rest =>
    if (i =? 0)%nat && is_bullet_glyph (strip (Span.text span))
    then bullet_loop rest (S i) formatted_spans
    else bullet_loop rest (S i) (formatted_spans ++ [format_span span])
  end.

(** The string [content] computed for a cell. *)
Definition cell_content (cell : list Span.t) : str :=
  let text := concat (map Span.text cell) in
  if startswith (strip text) [bullet]
  then
    let formatted_spans := bullet_loop cell 0 [] in
    of_string "- " ++ concat formatted_spans
  else concat (map format_span cell).

(** The line appended for one cell of an emitted row. *)
Definition cell_line (cell : list Span.t) : str :=
  match cell with
  | [] => of_string "  [],"
  | _ => of_string "  [" ++ cell_content cell ++ of_string "],"
  end.

(** ** generate_typst_from_pdf: the grid *)

Definition Cell := list Span.t.
Definition Grid := list (list Cell).

Fixpoint list_set {A} (l : list A) (i : nat) (v : A) : list A :=
  match l, i with
  | [], _ => []
  | _ :: rest, O => v :: rest
  | a :: rest, S i' => a :: list_set rest i' v
  end.

(** [grid[row_idx][col_idx].append(span)]; [None] is [IndexError]. *)
Definition grid_append (grid : Grid) (row_idx col_idx : nat) (span : Span.t)
  : option Grid :=
  match nth_error grid row_idx with
  | None => None
  | Some row =>
    match nth_error row col_idx with
    | None => None
    | Some cell =>
      Some (list_set grid row_idx (list_set row col_idx (cell ++ [span])))
    end
  end.

(** [for span in spans: ... grid[row_idx][col_idx].append(span)] *)
Fixpoint assign_spans (spans : list Span.t) (x_clusters y_clusters : list Q)
    (grid : Grid) : option Grid :=
  match spans with
  | [] => Some grid
  | span :: rest =>
    let row_idx := assign_to_cluster (Span.y span) y_clusters 3 in
    let col_idx := assign_to_cluster (Span.x span) x_clusters 5 in
    match grid_append grid row_idx col_idx span with
    | None => None
    | Some grid' => assign_spans rest x_clusters y_clusters grid'
    end
  end.

(** [cell.sort(key=lambda s: s.x)]: a stable sort on the key. *)
Fixpoint insert_by_x (s : Span.t) (cell : Cell) : Cell :=
  match cell with
  | [] => [s]
  | s' :: rest =>
    if Qle_bool (Span.x s) (Span.x s') then s :: cell
    else s' :: insert_by_x s rest
  end.

Definition sort_by_x (cell : Cell) : Cell := fold_right insert_by_x [] cell.

(** ** generate_typst_from_pdf: rows and pages *)

(** [typst_lines.append(line)] *)
Definition append (typst_lines : list str) (line : str) : list str :=
  typst_lines ++ [line].

(** The body of [for row_idx, row in enumerate(grid)]. *)
Definition emit_row (x_clusters : list Q) (typst_lines : list str)
    (row : list Cell) : list str :=
  let filled_cols :=
    length (filter (fun cell => negb (match cell with [] => true | _ => false end)) row) in
  if (filled_cols =? 0)%nat then typst_lines
  else
    let typst_lines := append typst_lines (of_string "#grid(") in
    let typst_lines :=
      append typst_lines
        (of_string "  columns: " ++ str_of_nat (length x_clusters)
                   ++ of_string ",") in
    let typst_lines := append typst_lines (of_string "  gutter: 1em,") in
    let typst_lines :=
      fold_left (fun lines cell => append lines (cell_line cell)) row
                typst_lines in
    append typst_lines (of_string ")").

(** The body of [for page_idx, page in enumerate(doc)]; the diagnostics
    printed to standard output are not part of [typst_lines]. *)
Definition process_page (typst_lines : list str) (page_idx : nat)
    (page : Page.t) : option (list str) :=
  let typst_lines :=
    if (0 <? page_idx)%nat
    then append (append typst_lines (of_string "#pagebreak()")) []
    else typst_lines in
  let spans := extract_all_spans page in
  let underlines := extract_underlines page in
  let spans := mark_underlines spans underlines in
  match spans with
  | [] => Some typst_lines
  | _ =>
    let x_positions := map Span.x spans in
    let y_positions := map Span.y spans in
    let x_clusters := cluster_positions x_positions 5 in
    let y_clusters := cluster_positions y_positions 3 in
    let grid : Grid := map (fun _ => map (fun _ => []) x_clusters) y_clusters in
    match assign_spans spans x_clusters y_clusters grid with
    | None => None
    | Some grid =>
      let grid := map (map sort_by_x) grid in
      let typst_lines := fold_left (emit_row x_clusters) grid typst_lines in
      Some (append typst_lines [])
    end
  end.

Fixpoint process_pages (typst_lines : list str) (page_idx : nat)
    (doc : list Page.t) : option (list str) :=
  match doc with
  | [] => Some typst_lines
  | page :: rest =>
    match process_page typst_lines page_idx page with
    | None => None
    | Some typst_lines' => process_pages typst_lines' (S page_idx) rest
    end
  end.

Definition quote : char := 34%N.

(** The header lines; [font] is [os.environ.get("TYPST_FONT", "Calibri")]. *)
Definition header (font : str) : list str :=
  [ of_string "// Generated from PDF using global grid approach";
    [];
    of_string "#set page(paper: " ++ [quote] ++ of_string "a4" ++ [quote]
      ++ of_string ", margin: (x: 2cm, y: 2cm))";
    of_string "#set text(font: " ++ [quote] ++ font ++ [quote]
      ++ of_string ", size: 11pt)";
    of_string "#set par(leading: 0.65em)";
    [] ].

(** The list [typst_lines] when the loop over the pages has ended. *)
Definition generate_typst_lines (font : str) (doc : list Page.t)
  : option (list str) :=
  process_pages (header font) 0 doc.

(** The returned [typst_content]. *)
Definition generate_typst_from_pdf (font : str) (doc : list Page.t)
  : option str :=
  option_map (join [10%N]) (generate_typst_lines font doc).

(** * Definitions used to state the properties *)

(** ** Escaping, as one pass over the text *)

(** The characters that are escaped, in the order of the replacements. *)
Definition special_chars : list char :=
  [ backslash; chr "#"; chr "*"; chr "_"; chr "["; chr "]"; chr "<"; chr ">";
    chr "`"; chr "$"; chr "@" ].

(** One replacement per special character, in the order of the list. *)
Definition escape_in_order (text : str) : str :=
  fold_left (fun t c => replace c [backslash; c] t) special_chars text.

(** What becomes of one character of the input. *)
Definition escape_char (c : char) : str :=
  if existsb (N.eqb c) special_chars then [backslash; c] else [c].

(** ** Style wraps *)

Inductive Wrap := UnderlineStrong | Strong | Emph | UnderlineOnly | Plain.

(** The wrap chosen for each of the eight flag combinations
    (bold, italic, underlined). *)
Definition wrap_of (bold italic underlined : bool) : Wrap :=
  match bold, italic, underlined with
  | true, true, true => UnderlineStrong
  | true, false, true => UnderlineStrong
  | true, true, false => Strong
  | true, false, false => Strong
  | false, true, true => Emph
  | false, true, false => Emph
  | false, false, true => UnderlineOnly
  | false, false, false => Plain
  end.

Definition apply_wrap (w : Wrap) (text : str) : str :=
  match w with
  | UnderlineStrong => of_string "#underline[#strong[" ++ text ++ of_string "]]"
  | Strong => of_string "#strong[" ++ text ++ of_string "]"
  | Emph => of_string "#emph[" ++ text ++ of_string "]"
  | UnderlineOnly => of_string "#underline[" ++ text ++ of_string "]"
  | Plain => text
  end.

(** ** Underline matching *)

(** A rectangle with vertical midpoint [Underline.y] matches a span. *)
Definition underline_matches (span : Span.t) (ul : Underline.t) : Prop :=
  Qabs (Underline.y ul - (Span.y span + Span.height span)) <= 5
  /\ Span.x span <= Underline.x1 ul
  /\ Underline.x0 ul <= Span.x span + Span.width span.

(** ** Chaining clusters *)

(** The clusters of [prev :: rest], read off the values from left to right:
    a value joins the cluster of the value before it when their difference is
    at most [tolerance], and starts a new cluster otherwise. *)
Fixpoint chain (tolerance : Q) (prev : Q) (rest : list Q) : list (list Q) :=
  match rest with
  | [] => [[prev]]
  | pos :: rest' =>
    let later := chain tolerance pos rest' in
    if Qle_bool (pos - prev) tolerance
    then match later with
         | current :: others => (prev :: current) :: others
         | [] => [[prev]]
         end
    else [prev] :: later
  end.

Definition chain_all (tolerance : Q) (values : list Q) : list (list Q) :=
  match values with
  | [] => []
  | first :: rest => chain tolerance first rest
  end.

(** The arithmetic mean of a cluster. *)
Definition mean (cluster : list Q) : Q := sum cluster / len cluster.

(** Neighbours in one cluster are at most [tolerance] apart. *)
Definition close (tolerance a b : Q) : Prop := b - a <= tolerance.

(** The first value of a cluster is more than [tolerance] after the last
    value of the cluster before it. *)
Definition split_at (tolerance : Q) (c1 c2 : list Q) : Prop :=
  tolerance < hd 0 c2 - last c1 0.

(** [clusters] is the chaining of [values]: the values in order, cut exactly
    at the neighbours that are more than [tolerance] apart. *)
Definition chaining (tolerance : Q) (values : list Q)
    (clusters : list (list Q)) : Prop :=
  concat clusters = values
  /\ Forall (fun cluster => cluster <> []) clusters
  /\ Forall (Sorted (close tolerance)) clusters
  /\ Sorted (split_at tolerance) clusters.

(** Neighbouring centers are more than [tolerance] apart. *)
Definition apart (tolerance a b : Q) : Prop := tolerance < b - a.

(** No two members of a list are numerically equal. *)
Definition distinct (l : list Q) : Prop :=
  StronglySorted (fun a b => ~ a == b) l.

(** ** The grid and the lines of a page *)

(** The spans of a page as the grid sees them. *)
Definition page_spans (page : Page.t) : list Span.t :=
  mark_underlines (extract_all_spans page) (extract_underlines page).

Definition row_of (y_clusters : list Q) (span : Span.t) : nat :=
  assign_to_cluster (Span.y span) y_clusters 3.

Definition col_of (x_clusters : list Q) (span : Span.t) : nat :=
  assign_to_cluster (Span.x span) x_clusters 5.

(** A grid of [nrows] rows of [ncols] cells each. *)
Definition grid_shape (nrows ncols : nat) (grid : Grid) : Prop :=
  length grid = nrows /\ Forall (fun row => length row = ncols) grid.

Definition cell_at (grid : Grid) (r c : nat) : Cell := nth c (nth r grid []) [].

Definition is_empty {A} (l : list A) : bool :=
  match l with [] => true | _ => false end.

(** The block of lines of one emitted row. *)
Definition grid_block (columns : nat) (row : list Cell) : list str :=
  [ of_string "#grid(";
    of_string "  columns: " ++ str_of_nat columns ++ of_string ",";
    of_string "  gutter: 1em," ]
  ++ map cell_line row ++ [ of_string ")" ].

(** The lines of a row: none when all its cells are empty. *)
Definition row_lines (columns : nat) (row : list Cell) : list str :=
  if forallb is_empty row then [] else grid_block columns row.

(** The separator in front of every page but the first. *)
Definition page_break (page_idx : nat) : list str :=
  if (0 <? page_idx)%nat then [of_string "#pagebreak()"; []] else [].

(** ** Example pages *)

Definition example_span (text : string) (x y : Q) : SpanData.t :=
  SpanData.mk (of_string text) (x, y, x + 10, y + 10) 0.

Definition example_page (spans : list SpanData.t) : Page.t :=
  Page.mk [Block.mk 0 [Line.mk spans]] [].

(** Spans at x = 0, 0, 50, 100 on the two lines y = 0 and y = 20. *)
Definition three_column_page : Page.t :=
  example_page [ example_span "A" 0 0; example_span "B" 0 20;
                 example_span "C" 50 0; example_span "D" 100 20 ].

(** One line of spans whose x-values 100, 105, 110, 115 chain into a single
    column that is wider than twice the tolerance. *)
Definition drifting_page : Page.t :=
  example_page [ example_span "A" 0 0; example_span "B" 100 0;
                 example_span "C" 105 0; example_span "D" 110 0;
                 example_span "E" 115 0 ].

(** A page without any text. *)
Definition blank_page : Page.t := Page.mk [] [].

(** A cell whose only span starts with the glyph and goes on with text. *)
Definition inline_bullet_cell : Cell :=
  [ Span.mk (bullet :: of_string " Item") 0 0 40 10 false false false ].

(** A cell whose first span is a black circle on its own. *)
Definition black_circle_cell : Cell :=
  [ Span.mk [black_circle] 0 0 5 10 false false false;
    Span.mk (of_string " Item one") 5 0 40 10 false false false ].

(** A cell whose first span is the glyph on its own. *)
Definition bullet_cell : Cell :=
  [ Span.mk [bullet] 0 0 5 10 false false false;
    Span.mk (of_string " Item one") 5 0 40 10 false false false ].

(** ** Reading escaped text back *)

Definition is_special (c : char) : bool := existsb (N.eqb c) special_chars.

(** Drops the backslash in front of each escaped character. *)
Fixpoint unescape (text : str) : str :=
  match text with
  | [] => []
  | c :: rest =>
    if (c =? backslash)%N
    then match rest with
         | [] => [c]
         | d :: rest' => d :: unescape rest'
         end
    else c :: unescape rest
  end.

(** Every special character stands right after a backslash that escapes it,
    and every backslash escapes a special character. *)
Fixpoint well_escaped (text : str) : bool :=
  match text with
  | [] => true
  | c :: rest =>
    if (c =? backslash)%N
    then match rest with
         | [] => false
         | d :: rest' => is_special d && well_escaped rest'
         end
    else negb (is_special c) && well_escaped rest
  end.

(** ** Counting page breaks *)

Definition is_page_break (line : str) : bool :=
  str_eqb line (of_string "#pagebreak()").

(** A cell whose first span is a white bullet on its own. *)
Definition white_bullet_cell : Cell :=
  [ Span.mk [white_bullet] 0 0 5 10 false false false;
    Span.mk (of_string " Item one") 5 0 40 10 false false false ].

(** A span that is bold, italic and underlined. *)
Definition bold_italic_underlined_span : Span.t :=
  Span.mk (of_string "x") 0 0 5 10 true true true.

(** * Properties *)

(** ** escape_typst *)

Lemma replace_app old new a b :
  replace old new (a ++ b) = replace old new a ++ replace old new b.
Proof. unfold replace. apply flat_map_app. Qed.

Lemma escape_in_order_app a b :
  escape_in_order (a ++ b) = escape_in_order a ++ escape_in_order b.
Proof.
  unfold escape_in_order.
  generalize special_chars as cs. intros cs. revert a b.
  induction cs as [|c cs IH]; intros a b; simpl; [reflexivity|].
  now rewrite replace_app, IH.
Qed.

Lemma escape_in_order_char c : escape_in_order [c] = escape_char c.
Proof.
  unfold escape_in_order, escape_char, special_chars, replace, backslash.
  cbn -[N.eqb].
  repeat match goal with
         | |- context [(c =? ?k)%N] =>
           destruct (N.eqb_spec c k) as [->|]; [reflexivity|]; cbn -[N.eqb]
         end.
  reflexivity.
Qed.

Lemma escape_in_order_flat_map text :
  escape_in_order text = flat_map escape_char text.
Proof.
  induction text as [|c text IH]; [reflexivity|].
  change (c :: text) with ([c] ++ text).
  now rewrite escape_in_order_app, escape_in_order_char, IH.
Qed.

Lemma escape_typst_in_order text : escape_typst text = escape_in_order text.
Proof. destruct text; reflexivity. Qed.

(** C7: [escape_typst] is the sequence of replacements in the order
    backslash, [#], [*], [_], the two square brackets, [<], [>], the backquote,
    [$], [@], each special character becoming a backslash and that character;
    an inserted backslash is never escaped again, so the result is the
    one-pass escaping of each input character.  Escaping [a#b*c_d] gives
    [a\#b\*c\_d] and escaping [\#] gives [\\\#]. *)
Theorem escape_typst_order_and_single_pass :
  (forall text : str,
      escape_typst text = escape_in_order text
      /\ escape_typst text = flat_map escape_char text)
  /\ special_chars = map chr (list_ascii_of_string "\#*_[]<>`$@")
  /\ escape_typst (of_string "a#b*c_d") = of_string "a\#b\*c\_d"
  /\ escape_typst (of_string "\#") = of_string "\\\#".
Proof.
  split; [|repeat split; reflexivity].
  intros text. split.
  - apply escape_typst_in_order.
  - rewrite escape_typst_in_order. apply escape_in_order_flat_map.
Qed.

(** ** format_span *)

Lemma format_span_wrap span :
  format_span span =
  apply_wrap (wrap_of (Span.is_bold span) (Span.is_italic span)
                      (Span.is_underlined span))
             (escape_typst (Span.text span)).
Proof.
  unfold format_span.
  destruct (Span.is_bold span), (Span.is_italic span),
    (Span.is_underlined span); reflexivity.
Qed.

(** C9, as the code has it: an italic, underlined span that is not bold gets
    the emphasis wrap alone; a bold italic span that is not underlined gets
    the strong wrap alone, and a bold italic span that is underlined gets the
    strong wrap inside the underline wrap; in neither case is there an
    emphasis wrap.  Every combination of the three flags is resolved in the
    order bold and underlined, bold, italic, underlined. *)
Theorem format_span_precedence :
  (forall text x y width height,
      format_span (Span.mk text x y width height false true true)
      = of_string "#emph[" ++ escape_typst text ++ of_string "]")
  /\ (forall text x y width height underlined,
         format_span (Span.mk text x y width height true true underlined)
         = if underlined
           then of_string "#underline[#strong[" ++ escape_typst text
                          ++ of_string "]]"
           else of_string "#strong[" ++ escape_typst text ++ of_string "]")
  /\ (forall span,
         format_span span
         = apply_wrap (wrap_of (Span.is_bold span) (Span.is_italic span)
                               (Span.is_underlined span))
                      (escape_typst (Span.text span))).
Proof.
  split; [reflexivity|]. split.
  - intros text x y width height []; reflexivity.
  - apply format_span_wrap.
Qed.

(** A span that is bold, italic and underlined is not given the strong wrap
    alone: the underline wrap is put around it. *)
Lemma format_span_precedence_counterexample :
  Span.is_bold bold_italic_underlined_span = true
  /\ Span.is_italic bold_italic_underlined_span = true
  /\ format_span bold_italic_underlined_span
     = of_string "#underline[#strong[x]]"
  /\ format_span bold_italic_underlined_span <> of_string "#strong[x]".
Proof.
  repeat split; try reflexivity. vm_compute. discriminate.
Qed.

(** ** mark_underlines *)

Lemma Qlt_bool_false_iff a b : Qlt_bool a b = false <-> b <= a.
Proof.
  unfold Qlt_bool. rewrite negb_false_iff. apply Qle_bool_iff.
Qed.

Lemma underline_hits_iff span ul :
  underline_hits span ul = true <-> underline_matches span ul.
Proof.
  unfold underline_hits, underline_matches.
  destruct (Qle_bool (Qabs (Underline.y ul - (Span.y span + Span.height span))) 5)
    eqn:Hy.
  - apply Qle_bool_iff in Hy.
    rewrite negb_true_iff, orb_false_iff, !Qlt_bool_false_iff. tauto.
  - split; [discriminate|]. intros [Hle _].
    apply Qle_bool_iff in Hle. congruence.
Qed.

Lemma underline_hits_false span ul :
  ~ underline_matches span ul -> underline_hits span ul = false.
Proof.
  intros Hn. destruct (underline_hits span ul) eqn:E; [|reflexivity].
  now apply underline_hits_iff in E.
Qed.

Lemma mark_span_no_match span underlines :
  (forall ul, In ul underlines -> ~ underline_matches span ul) ->
  mark_span span underlines = span.
Proof.
  induction underlines as [|ul rest IH]; intros Hno; simpl; [reflexivity|].
  rewrite underline_hits_false by (apply Hno; now left).
  apply IH. intros u Hu. apply Hno. now right.
Qed.

Lemma mark_span_first_match span before ul after :
  (forall u, In u before -> ~ underline_matches span u) ->
  underline_matches span ul ->
  mark_span span (before ++ ul :: after) = Span.set_underlined span.
Proof.
  intros Hbefore Hul.
  induction before as [|u before IH]; simpl.
  - apply underline_hits_iff in Hul. now rewrite Hul.
  - rewrite underline_hits_false by (apply Hbefore; now left).
    apply IH. intros v Hv. apply Hbefore. now right.
Qed.

Lemma mark_span_cases span underlines :
  (mark_span span underlines = Span.set_underlined span
   /\ exists ul, In ul underlines /\ underline_matches span ul)
  \/ (mark_span span underlines = span
      /\ forall ul, In ul underlines -> ~ underline_matches span ul).
Proof.
  induction underlines as [|ul rest IH]; simpl.
  - right. split; [reflexivity|]. intros ul [].
  - destruct (underline_hits span ul) eqn:E.
    + left. split; [reflexivity|]. exists ul. split; [now left|].
      now apply underline_hits_iff.
    + destruct IH as [[Hm [u [Hin Hu]]]|[Hm Hno]].
      * left. split; [exact Hm|]. exists u. split; [now right|exact Hu].
      * right. split; [exact Hm|]. intros u [<-|Hin]; [|now apply Hno].
        intros Hu. apply underline_hits_iff in Hu. congruence.
Qed.

(** C6: for spans that enter with [is_underlined = false], [mark_underlines]
    keeps the spans in place and sets the flag of a span exactly when some
    rectangle has its vertical midpoint within 5 of the span's bottom and an
    x-range that meets the span's; the first such rectangle in the list
    settles it, whatever follows it; a span without such a rectangle is left
    as it was.  The span (0, 0, 10, 10) is marked by a rectangle with midpoint
    10.2 over [2, 8], and not by one with midpoint 20. *)
Theorem mark_underlines_first_match_wins
    (spans : list Span.t) (underlines : list Underline.t)
    (Hfresh : Forall (fun span => Span.is_underlined span = false) spans) :
  length (mark_underlines spans underlines) = length spans
  /\ (forall n span, nth_error spans n = Some span ->
        exists span',
          nth_error (mark_underlines spans underlines) n = Some span'
          /\ (Span.is_underlined span' = true <->
              exists ul, In ul underlines /\ underline_matches span ul)
          /\ (forall before ul after,
                underlines = before ++ ul :: after ->
                (forall u, In u before -> ~ underline_matches span u) ->
                underline_matches span ul ->
                forall after',
                  mark_span span (before ++ ul :: after') = span'
                  /\ span' = Span.set_underlined span)
          /\ ((forall ul, In ul underlines -> ~ underline_matches span ul) ->
              span' = span))
  /\ (let span := Span.mk (of_string "text") 0 0 10 10 false false false in
      map Span.is_underlined
          (mark_underlines [span] [underline_of_rect (Rect.mk 2 10 8 10.4 0.4)])
      = [true]
      /\ Underline.y (underline_of_rect (Rect.mk 2 10 8 10.4 0.4)) == 10.2
      /\ map Span.is_underlined
             (mark_underlines [span] [Underline.mk 20 2 8])
         = [false]).
Proof.
  split; [apply length_map|]. split; [|repeat split; reflexivity].
  intros n span Hn. exists (mark_span span underlines).
  assert (Hu : Span.is_underlined span = false).
  { rewrite Forall_forall in Hfresh. apply Hfresh.
    eapply nth_error_In; eassumption. }
  split; [|split; [|split]].
  - unfold mark_underlines. now rewrite nth_error_map, Hn.
  - destruct (mark_span_cases span underlines) as [[-> Hex]|[-> Hno]].
    + split; [intros _; exact Hex|reflexivity].
    + rewrite Hu. split; [discriminate|].
      intros [ul [Hin Hm]]. now apply Hno in Hm.
  - intros before ul after -> Hbefore Hul after'.
    rewrite !mark_span_first_match by assumption. now split.
  - apply mark_span_no_match.
Qed.

Lemma mark_underlines_first_match_wins_witness :
  let span := Span.mk (of_string "ab") 0 0 10 10 false false false in
  let underlines := [Underline.mk 20 2 8; Underline.mk 10.2 2 8] in
  Forall (fun span => Span.is_underlined span = false) [span]
  /\ length (mark_underlines [span] underlines) = 1%nat.
Proof.
  intros span underlines.
  assert (Hfresh : Forall (fun s => Span.is_underlined s = false) [span])
    by (repeat constructor).
  split; [exact Hfresh|].
  exact (proj1 (mark_underlines_first_match_wins [span] underlines Hfresh)).
Defined.

(** ** sorted(set(positions)) *)

Lemma set_incl l q : In q (set l) -> In q l.
Proof.
  revert q. induction l as [|p l IH]; intros q; simpl; [tauto|].
  intros [->|Hq]; [now left|].
  apply filter_In in Hq. right. now apply IH.
Qed.

Lemma set_complete l p : In p l -> exists q, In q (set l) /\ q == p.
Proof.
  induction l as [|a l IH]; simpl; [tauto|].
  intros [->|Hp].
  - exists p. split; [now left|reflexivity].
  - destruct (IH Hp) as [q [Hq Hqp]].
    destruct (Qeq_bool a q) eqn:E.
    + exists a. split; [now left|].
      apply Qeq_bool_iff in E. now rewrite E.
    + exists q. split; [|exact Hqp].
      right. apply filter_In. split; [exact Hq|]. now rewrite E.
Qed.

Lemma distinct_filter f l : distinct l -> distinct (filter f l).
Proof.
  unfold distinct. induction 1 as [|a l Hl IH Ha]; simpl; [constructor|].
  destruct (f a); [|exact IH].
  constructor; [exact IH|].
  rewrite Forall_forall in *. intros x Hx. apply Ha.
  now apply filter_In in Hx.
Qed.

Lemma set_distinct l : distinct (set l).
Proof.
  induction l as [|p l IH]; simpl; [constructor|].
  constructor; [now apply distinct_filter|].
  apply Forall_forall. intros q Hq. apply filter_In in Hq.
  destruct Hq as [_ Hq]. apply negb_true_iff in Hq.
  now apply Qeq_bool_neq.
Qed.

Lemma insert_sorted_In p l x : In x (insert_sorted p l) <-> x = p \/ In x l.
Proof.
  induction l as [|q l IH]; simpl; [intuition|].
  destruct (Qle_bool p q); simpl; [intuition|].
  rewrite IH. intuition.
Qed.

Lemma sorted_In l x : In x (sorted l) <-> In x l.
Proof.
  induction l as [|p l IH]; simpl; [tauto|].
  rewrite insert_sorted_In, IH. intuition.
Qed.

Lemma insert_sorted_strict p l :
  StronglySorted Qlt l -> Forall (fun q => ~ p == q) l ->
  StronglySorted Qlt (insert_sorted p l).
Proof.
  induction 1 as [|q l Hl IH Hq]; intros Hp; simpl.
  - repeat constructor.
  - inversion_clear Hp as [|? ? Hpq Hpl].
    destruct (Qle_bool p q) eqn:E.
    + apply Qle_bool_iff in E.
      assert (Hlt : p < q).
      { apply Qle_lteq in E. destruct E as [E|E]; [exact E|contradiction]. }
      constructor; [now constructor|].
      constructor; [exact Hlt|].
      eapply Forall_impl; [|exact Hq]. intros x Hx. now apply Qlt_trans with q.
    + assert (Hlt : q < p).
      { apply Qnot_le_lt. intros H. apply Qle_bool_iff in H. congruence. }
      constructor; [now apply IH|].
      apply Forall_forall. intros x Hx. apply insert_sorted_In in Hx.
      destruct Hx as [->|Hx]; [exact Hlt|].
      rewrite Forall_forall in Hq. now apply Hq.
Qed.

Lemma sorted_strict l : distinct l -> StronglySorted Qlt (sorted l).
Proof.
  induction 1 as [|p l Hl IH Hp]; simpl; [constructor|].
  apply insert_sorted_strict; [exact IH|].
  rewrite Forall_forall in *. intros q Hq. apply Hp. now apply sorted_In.
Qed.

Lemma sorted_set_strict positions :
  StronglySorted Qlt (sorted (set positions)).
Proof. apply sorted_strict, set_distinct. Qed.

Lemma sorted_set_members positions :
  (forall q, In q (sorted (set positions)) -> In q positions)
  /\ (forall p, In p positions ->
        exists q, In q (sorted (set positions)) /\ q == p).
Proof.
  split.
  - intros q Hq. now apply set_incl, sorted_In.
  - intros p Hp. destruct (set_complete positions p Hp) as [q [Hq Hqp]].
    exists q. split; [now apply sorted_In|exact Hqp].
Qed.

Lemma filter_all {A} (f : A -> bool) l :
  Forall (fun x => f x = true) l -> filter f l = l.
Proof.
  induction 1 as [|x l Hx Hl IH]; simpl; [reflexivity|].
  now rewrite Hx, IH.
Qed.

Lemma set_of_strict l : StronglySorted Qlt l -> set l = l.
Proof.
  induction 1 as [|p l Hl IH Hp]; simpl; [reflexivity|].
  rewrite IH. f_equal. apply filter_all.
  eapply Forall_impl; [|exact Hp]. intros q Hq. simpl in Hq.
  apply negb_true_iff. destruct (Qeq_bool p q) eqn:E; [|reflexivity].
  apply Qeq_bool_iff in E. rewrite E in Hq. now apply Qlt_irrefl in Hq.
Qed.

Lemma sorted_of_strict l : StronglySorted Qlt l -> sorted l = l.
Proof.
  induction 1 as [|p l Hl IH Hp]; simpl; [reflexivity|].
  rewrite IH. destruct l as [|q l]; simpl; [reflexivity|].
  inversion_clear Hp as [|? ? Hpq _].
  apply Qlt_le_weak, Qle_bool_iff in Hpq. now rewrite Hpq.
Qed.

(** ** The clustering loop is the chaining of the sorted values *)

Lemma chain_head tolerance prev rest :
  exists current others, chain tolerance prev rest = (prev :: current) :: others.
Proof.
  revert prev. induction rest as [|pos rest IH]; intros prev; simpl.
  - now exists [], [].
  - destruct (IH pos) as [current [others ->]].
    destruct (Qle_bool (pos - prev) tolerance); eauto.
Qed.

Lemma cluster_step_last tolerance before current prev pos :
  cluster_step tolerance (before ++ [current ++ [prev]]) pos =
  if Qle_bool (pos - prev) tolerance
  then before ++ [(current ++ [prev]) ++ [pos]]
  else (before ++ [current ++ [prev]]) ++ [[pos]].
Proof.
  unfold cluster_step. now rewrite !last_last, removelast_last.
Qed.

Lemma cluster_loop_chain tolerance rest :
  forall before current prev,
    fold_left (cluster_step tolerance) rest (before ++ [current ++ [prev]]) =
    before ++
      match chain tolerance prev rest with
      | c :: others => (current ++ c) :: others
      | [] => []
      end.
Proof.
  induction rest as [|pos rest IH]; intros before current prev; simpl.
  - reflexivity.
  - rewrite cluster_step_last.
    destruct (chain_head tolerance pos rest) as [c [others Hc]].
    destruct (Qle_bool (pos - prev) tolerance).
    + rewrite IH, Hc. now rewrite <- !app_assoc.
    + change [[pos]] with [[] ++ [pos]]. rewrite IH, Hc.
      now rewrite <- !app_assoc.
Qed.

Lemma insert_sorted_nonempty p l : insert_sorted p l <> [].
Proof. destruct l as [|q l]; simpl; [|destruct (Qle_bool p q)]; discriminate. Qed.

Lemma cluster_positions_chain positions tolerance :
  cluster_positions positions tolerance =
  map mean (chain_all tolerance (sorted (set positions))).
Proof.
  unfold cluster_positions, chain_all.
  destruct positions as [|p positions]; [reflexivity|].
  destruct (sorted (set (p :: positions))) as [|first rest] eqn:E.
  - simpl in E. now apply insert_sorted_nonempty in E.
  - cbn [hd tl].
    pose proof (cluster_loop_chain tolerance rest [] [] first) as H.
    simpl in H. rewrite H.
    destruct (chain_head tolerance first rest) as [c [others ->]].
    reflexivity.
Qed.

Lemma chain_chaining tolerance rest :
  forall prev, chaining tolerance (prev :: rest) (chain tolerance prev rest).
Proof.
  unfold chaining.
  induction rest as [|pos rest IH]; intros prev; simpl.
  - repeat split; repeat constructor. discriminate.
  - destruct (IH pos) as [Hcat [Hne [Hclose Hsplit]]].
    destruct (chain_head tolerance pos rest) as [c [others Hc]].
    rewrite Hc in *. simpl in Hcat.
    inversion_clear Hne as [|? ? _ Hne'].
    inversion_clear Hclose as [|? ? Hc1 Hclose'].
    destruct (Qle_bool (pos - prev) tolerance) eqn:E.
    + apply Qle_bool_iff in E. simpl. rewrite Hcat.
      split; [reflexivity|]. split; [constructor; [discriminate|exact Hne']|].
      split.
      * constructor; [|exact Hclose'].
        constructor; [exact Hc1|]. now constructor.
      * inversion_clear Hsplit as [|? ? Hs Hhd].
        constructor; [exact Hs|].
        destruct others as [|c2 others]; constructor.
        inversion_clear Hhd as [|? ? Hrel]. exact Hrel.
    + simpl. rewrite Hcat.
      split; [reflexivity|].
      split; [repeat constructor; [discriminate|discriminate|exact Hne']|].
      split.
      * constructor; [repeat constructor|].
        constructor; [exact Hc1|exact Hclose'].
      * constructor; [exact Hsplit|]. constructor.
        unfold split_at. simpl.
        apply Qnot_le_lt. intros H. apply Qle_bool_iff in H. congruence.
Qed.

Lemma chain_all_chaining tolerance values :
  chaining tolerance values (chain_all tolerance values).
Proof.
  destruct values as [|first rest]; simpl.
  - unfold chaining. repeat split; constructor.
  - apply chain_chaining.
Qed.

Lemma concat_nonempty_nil {A} (ls : list (list A)) :
  Forall (fun l => l <> []) ls -> concat ls = [] -> ls = [].
Proof.
  destruct 1 as [|l ls Hl _]; [reflexivity|]. simpl.
  destruct l; [congruence|discriminate].
Qed.

(** The chaining of a list of values is unique. *)
Lemma chaining_unique tolerance rest :
  forall prev clusters,
    chaining tolerance (prev :: rest) clusters ->
    clusters = chain tolerance prev rest.
Proof.
  unfold chaining.
  induction rest as [|pos rest IH]; intros prev clusters
    [Hcat [Hne [Hclose Hsplit]]].
  - destruct clusters as [|c clusters]; [discriminate|].
    inversion_clear Hne as [|? ? Hc Hne'].
    destruct c as [|v c]; [congruence|]. simpl in Hcat.
    injection Hcat as -> Hrest.
    destruct c; [|discriminate]. simpl in Hrest.
    now rewrite (concat_nonempty_nil clusters Hne' Hrest).
  - destruct clusters as [|c clusters]; [discriminate|].
    inversion_clear Hne as [|? ? Hc Hne'].
    inversion_clear Hclose as [|? ? Hc1 Hclose'].
    inversion_clear Hsplit as [|? ? Hsplit' Hhd].
    destruct c as [|v c]; [congruence|]. simpl in Hcat.
    injection Hcat as -> Hrest. cbn [chain].
    destruct c as [|v c].
    + simpl in Hrest.
      assert (Hlater : clusters = chain tolerance pos rest)
        by (apply IH; repeat split; assumption).
      destruct (chain_head tolerance pos rest) as [c2 [others Hc2]].
      rewrite Hc2 in Hlater. subst clusters.
      inversion_clear Hhd as [|? ? Hgap]. unfold split_at in Hgap.
      simpl in Hgap.
      destruct (Qle_bool (pos - prev) tolerance) eqn:E.
      * apply Qle_bool_iff in E. lra.
      * now rewrite Hc2.
    + simpl in Hrest. injection Hrest as -> Hrest.
      inversion_clear Hc1 as [|? ? Hc1' Hhd1].
      inversion_clear Hhd1 as [|? ? Hnear]. unfold close in Hnear.
      assert (Hlater : (pos :: c) :: clusters = chain tolerance pos rest).
      { apply IH. split; [simpl; now rewrite Hrest|].
        split; [constructor; [discriminate|exact Hne']|].
        split; [now constructor|].
        constructor; [exact Hsplit'|].
        destruct Hhd as [|c2 others Hgap]; constructor. exact Hgap. }
      rewrite <- Hlater.
      apply Qle_bool_iff in Hnear. now rewrite Hnear.
Qed.

Lemma chain_all_unique tolerance values clusters :
  chaining tolerance values clusters -> clusters = chain_all tolerance values.
Proof.
  destruct values as [|first rest]; simpl.
  - intros [Hcat [Hne _]]. now apply concat_nonempty_nil.
  - apply chaining_unique.
Qed.

(** ** Cluster means lie between the cluster's smallest and largest value *)

Lemma len_cons {A} (a : A) l : len (a :: l) == 1 + len l.
Proof.
  unfold len. simpl length. rewrite Nat2Z.inj_succ, <- Z.add_1_l.
  now rewrite inject_Z_plus.
Qed.

Lemma len_nonneg {A} (l : list A) : 0 <= len l.
Proof.
  unfold len. change 0 with (inject_Z 0). rewrite <- Zle_Qle. lia.
Qed.

Lemma len_pos {A} (l : list A) : l <> [] -> 0 < len l.
Proof.
  destruct l as [|a l]; [congruence|]. intros _.
  rewrite len_cons. pose proof (len_nonneg l). lra.
Qed.

Lemma fold_sum_ge lo cluster :
  Forall (fun v => lo <= v) cluster ->
  forall acc, acc + len cluster * lo <= fold_left Qplus cluster acc.
Proof.
  induction 1 as [|v cluster Hv Hc IH]; intros acc; simpl.
  - change (len (@nil Q)) with 0. lra.
  - eapply Qle_trans; [|apply IH]. rewrite len_cons. lra.
Qed.

Lemma fold_sum_le hi cluster :
  Forall (fun v => v <= hi) cluster ->
  forall acc, fold_left Qplus cluster acc <= acc + len cluster * hi.
Proof.
  induction 1 as [|v cluster Hv Hc IH]; intros acc; simpl.
  - change (len (@nil Q)) with 0. lra.
  - eapply Qle_trans; [apply IH|]. rewrite len_cons. lra.
Qed.

Lemma mean_ge lo cluster :
  cluster <> [] -> Forall (fun v => lo <= v) cluster -> lo <= mean cluster.
Proof.
  intros Hne Hlo. unfold mean, sum.
  apply Qle_shift_div_l; [now apply len_pos|].
  pose proof (fold_sum_ge lo cluster Hlo 0). lra.
Qed.

Lemma mean_le hi cluster :
  cluster <> [] -> Forall (fun v => v <= hi) cluster -> mean cluster <= hi.
Proof.
  intros Hne Hhi. unfold mean, sum.
  apply Qle_shift_div_r; [now apply len_pos|].
  pose proof (fold_sum_le hi cluster Hhi 0). lra.
Qed.

Lemma mean_singleton c : mean [c] = c.
Proof.
  destruct c as [n d]. unfold mean, sum, len, Qdiv, Qmult, Qplus, Qinv. simpl.
  now rewrite !Z.mul_1_r, Pos.mul_1_r.
Qed.

Lemma strict_hd_le cluster :
  StronglySorted Qlt cluster -> Forall (fun v => hd 0 cluster <= v) cluster.
Proof.
  intros H. destruct H as [|a l Hl Ha]; [constructor|]. simpl.
  constructor; [apply Qle_refl|].
  eapply Forall_impl; [|exact Ha]. intros v. apply Qlt_le_weak.
Qed.

Lemma strict_le_last cluster :
  StronglySorted Qlt cluster -> Forall (fun v => v <= last cluster 0) cluster.
Proof.
  induction 1 as [|a l Hl IH Ha]; [constructor|].
  destruct l as [|b l].
  - repeat constructor. apply Qle_refl.
  - change (last (a :: b :: l) 0) with (last (b :: l) 0).
    constructor; [|exact IH].
    inversion_clear Ha as [|? ? Hab _]. inversion_clear IH as [|? ? Hb _].
    apply Qlt_le_weak. now apply Qlt_le_trans with b.
Qed.

Lemma strict_app a b :
  StronglySorted Qlt (a ++ b) ->
  StronglySorted Qlt a /\ StronglySorted Qlt b
  /\ forall u v, In u a -> In v b -> u < v.
Proof.
  induction a as [|p a IH]; simpl; intros H.
  - split; [constructor|]. split; [exact H|]. intros u v [].
  - inversion_clear H as [|? ? Hs Hp].
    destruct (IH Hs) as [Ha [Hb Hab]].
    rewrite Forall_app in Hp. destruct Hp as [Hpa Hpb].
    split; [now constructor|]. split; [exact Hb|].
    intros u v [<-|Hu] Hv.
    + rewrite Forall_forall in Hpb. now apply Hpb.
    + now apply Hab.
Qed.

Lemma last_In {A} (l : list A) d : l <> [] -> In (last l d) l.
Proof.
  induction l as [|a l IH]; [congruence|]. intros _.
  destruct l as [|b l]; [now left|].
  right. apply IH. discriminate.
Qed.

Lemma hd_In {A} (l : list A) d : l <> [] -> In (hd d l) l.
Proof. destruct l; [congruence|]. intros _. now left. Qed.

(** The centers of a chaining of strictly ascending values are strictly
    ascending and more than the tolerance apart. *)
Lemma chaining_means tolerance clusters :
  Forall (fun cluster => cluster <> []) clusters ->
  Sorted (split_at tolerance) clusters ->
  StronglySorted Qlt (concat clusters) ->
  Sorted (fun a b => a < b /\ apart tolerance a b) (map mean clusters).
Proof.
  induction clusters as [|c1 clusters IH]; intros Hne Hsplit Hsorted; simpl.
  - constructor.
  - inversion_clear Hne as [|? ? Hc1 Hne'].
    inversion_clear Hsplit as [|? ? Hsplit' Hhd].
    simpl in Hsorted. apply strict_app in Hsorted.
    destruct Hsorted as [Hs1 [Hsrest Hcross]].
    constructor; [now apply IH|].
    destruct clusters as [|c2 clusters]; simpl; constructor.
    inversion_clear Hne' as [|? ? Hc2 _].
    inversion_clear Hhd as [|? ? Hgap]. unfold split_at in Hgap.
    simpl in Hsrest. apply strict_app in Hsrest. destruct Hsrest as [Hs2 _].
    assert (H1 : mean c1 <= last c1 0)
      by (apply mean_le; [exact Hc1|now apply strict_le_last]).
    assert (H2 : hd 0 c2 <= mean c2)
      by (apply mean_ge; [exact Hc2|now apply strict_hd_le]).
    assert (H3 : last c1 0 < hd 0 c2).
    { apply Hcross; [now apply last_In|].
      simpl. apply in_or_app. left. now apply hd_In. }
    unfold apart. split; lra.
Qed.

Lemma cluster_positions_apart positions tolerance :
  Sorted (fun a b => a < b /\ apart tolerance a b)
         (cluster_positions positions tolerance).
Proof.
  rewrite cluster_positions_chain.
  destruct (chain_all_chaining tolerance (sorted (set positions)))
    as [Hcat [Hne [_ Hsplit]]].
  apply chaining_means; try assumption.
  rewrite Hcat. apply sorted_set_strict.
Qed.

Lemma Sorted_weaken {A} (R S : A -> A -> Prop) l :
  (forall a b, R a b -> S a b) -> Sorted R l -> Sorted S l.
Proof.
  intros HRS. induction 1 as [|a l Hl IH Ha]; constructor; [exact IH|].
  destruct Ha; constructor. now apply HRS.
Qed.

Lemma Sorted_Qlt_strong l : Sorted Qlt l -> StronglySorted Qlt l.
Proof.
  apply Sorted_StronglySorted. intros a b c. apply Qlt_trans.
Qed.

Lemma chain_apart tolerance rest :
  forall prev,
    Sorted (apart tolerance) (prev :: rest) ->
    chain tolerance prev rest = map (fun c => [c]) (prev :: rest).
Proof.
  induction rest as [|pos rest IH]; intros prev Hs; simpl; [reflexivity|].
  inversion_clear Hs as [|? ? Hs' Hhd]. inversion_clear Hhd as [|? ? Hgap].
  unfold apart in Hgap.
  destruct (Qle_bool (pos - prev) tolerance) eqn:E.
  - apply Qle_bool_iff in E. lra.
  - now rewrite IH.
Qed.

(** Clustering a list of centers that are ascending and more than the
    tolerance apart gives the list back. *)
Lemma cluster_positions_fixed centers tolerance :
  Sorted (fun a b => a < b /\ apart tolerance a b) centers ->
  cluster_positions centers tolerance = centers.
Proof.
  intros Hs.
  assert (Hlt : StronglySorted Qlt centers).
  { apply Sorted_Qlt_strong. eapply Sorted_weaken; [|exact Hs].
    now intros a b [Hab _]. }
  assert (Hap : Sorted (apart tolerance) centers).
  { eapply Sorted_weaken; [|exact Hs]. now intros a b [_ Hab]. }
  rewrite cluster_positions_chain, set_of_strict, sorted_of_strict
    by (try rewrite set_of_strict; assumption).
  destruct centers as [|first rest]; [reflexivity|].
  unfold chain_all. rewrite chain_apart by assumption.
  rewrite map_map. clear. induction (first :: rest) as [|c l IH]; simpl.
  - reflexivity.
  - now rewrite mean_singleton, IH.
Qed.

(** C4: [cluster_positions] works on the strictly ascending list of the
    distinct input values and cuts it into clusters exactly between the
    neighbours that are more than the tolerance apart: a value joins the
    cluster of the value just before it when their difference is at most the
    tolerance, and starts a new cluster otherwise.  Every center is the mean
    of its cluster.  The values 10, 12, 15, 30, 31, 9 with tolerance 5 form the
    clusters 9, 10, 12, 15 and 30, 31, with centers 11.5 and 30.5. *)
Theorem cluster_positions_is_chaining :
  (forall (positions : list Q) (tolerance : Q),
      let values := sorted (set positions) in
      StronglySorted Qlt values
      /\ (forall q, In q values -> In q positions)
      /\ (forall p, In p positions -> exists q, In q values /\ q == p)
      /\ chaining tolerance values (chain_all tolerance values)
      /\ (forall clusters,
            chaining tolerance values clusters ->
            cluster_positions positions tolerance
            = map (fun cluster => sum cluster / len cluster) clusters))
  /\ chain_all 5 (sorted (set [10; 12; 15; 30; 31; 9]))
     = [[9; 10; 12; 15]; [30; 31]]
  /\ Forall2 Qeq (cluster_positions [10; 12; 15; 30; 31; 9] 5) [11.5; 30.5].
Proof.
  split.
  - intros positions tolerance values.
    split; [apply sorted_set_strict|].
    split; [apply sorted_set_members|].
    split; [apply sorted_set_members|].
    split; [apply chain_all_chaining|].
    intros clusters Hchaining.
    apply chain_all_unique in Hchaining. subst clusters.
    apply cluster_positions_chain.
  - split; [reflexivity|].
    repeat constructor.
Qed.

(** C5: the centers returned by [cluster_positions] are strictly ascending,
    neighbouring centers are more than the tolerance apart, and clustering the
    centers again with the same tolerance returns the same list. *)
Theorem cluster_positions_fixed_point (positions : list Q) (tolerance : Q) :
  StronglySorted Qlt (cluster_positions positions tolerance)
  /\ Sorted (apart tolerance) (cluster_positions positions tolerance)
  /\ cluster_positions (cluster_positions positions tolerance) tolerance
     = cluster_positions positions tolerance.
Proof.
  pose proof (cluster_positions_apart positions tolerance) as Hs.
  split; [|split].
  - apply Sorted_Qlt_strong. eapply Sorted_weaken; [|exact Hs].
    now intros a b [Hab _].
  - eapply Sorted_weaken; [|exact Hs]. now intros a b [_ Hab].
  - now apply cluster_positions_fixed.
Qed.

(** ** assign_to_cluster stays inside the list of centers *)

Lemma assign_loop_bound value tolerance clusters :
  forall i j,
    assign_loop value clusters tolerance i = Some j ->
    (i <= j < i + length clusters)%nat.
Proof.
  induction clusters as [|c clusters IH]; intros i j; cbn [assign_loop length]; [discriminate|].
  destruct (Qle_bool (Qabs (value - c)) tolerance).
  - intros H. inversion H. subst j. lia.
  - intros H. specialize (IH _ _ H). lia.
Qed.

Lemma assign_loop_within value tolerance clusters :
  forall i j,
    assign_loop value clusters tolerance i = Some j ->
    exists c, nth_error clusters (j - i) = Some c
              /\ Qabs (value - c) <= tolerance.
Proof.
  induction clusters as [|c clusters IH]; intros i j; cbn [assign_loop length]; [discriminate|].
  destruct (Qle_bool (Qabs (value - c)) tolerance) eqn:E.
  - intros H. inversion H. subst j. rewrite Nat.sub_diag. exists c.
    split; [reflexivity|now apply Qle_bool_iff].
  - intros H. pose proof (assign_loop_bound _ _ _ _ _ H) as Hb.
    destruct (IH _ _ H) as [c' [Hn Hc']]. exists c'.
    split; [|exact Hc'].
    replace (j - i)%nat with (S (j - S i)) by lia. exact Hn.
Qed.

Lemma assign_loop_none value tolerance clusters :
  forall i,
    assign_loop value clusters tolerance i = None <->
    Forall (fun c => ~ Qabs (value - c) <= tolerance) clusters.
Proof.
  induction clusters as [|c clusters IH]; intros i; cbn [assign_loop].
  - split; [constructor|reflexivity].
  - destruct (Qle_bool (Qabs (value - c)) tolerance) eqn:E.
    + split; [discriminate|]. intros H. inversion_clear H as [|? ? Hc _].
      apply Qle_bool_iff in E. contradiction.
    + rewrite IH. split.
      * intros H. constructor; [|exact H].
        intros Hc. apply Qle_bool_iff in Hc. congruence.
      * intros H. now inversion_clear H.
Qed.

Lemma assign_to_cluster_lt value clusters tolerance :
  clusters <> [] ->
  (assign_to_cluster value clusters tolerance < length clusters)%nat.
Proof.
  intros Hne. unfold assign_to_cluster.
  destruct (assign_loop value clusters tolerance 0) as [j|] eqn:E.
  - apply assign_loop_bound in E. lia.
  - destruct clusters; [congruence|simpl; lia].
Qed.

Lemma cluster_positions_nonempty positions tolerance :
  positions <> [] -> cluster_positions positions tolerance <> [].
Proof.
  intros Hne. rewrite cluster_positions_chain.
  destruct positions as [|p positions]; [congruence|].
  simpl set. simpl sorted.
  destruct (insert_sorted p _) as [|first rest] eqn:E.
  - now apply insert_sorted_nonempty in E.
  - simpl. destruct (chain_head tolerance first rest) as [c [others ->]].
    discriminate.
Qed.

(** ** Appending to a cell of the grid *)

Lemma length_list_set {A} (l : list A) i v : length (list_set l i v) = length l.
Proof.
  revert i. induction l as [|a l IH]; intros [|i]; simpl; try reflexivity.
  now rewrite IH.
Qed.

Lemma nth_list_set {A} (l : list A) i j v d :
  (i < length l)%nat ->
  nth j (list_set l i v) d = if (j =? i)%nat then v else nth j l d.
Proof.
  revert i j. induction l as [|a l IH]; intros i j Hi; simpl in Hi; [lia|].
  destruct i as [|i], j as [|j]; simpl; try reflexivity.
  apply IH. lia.
Qed.

Lemma Forall_list_set {A} (P : A -> Prop) l i v :
  Forall P l -> P v -> Forall P (list_set l i v).
Proof.
  intros Hl Hv. revert i.
  induction Hl as [|a l Ha Hl IH]; intros [|i]; simpl; constructor; auto.
Qed.

Lemma nth_error_nth_lt {A} (l : list A) i d :
  (i < length l)%nat -> nth_error l i = Some (nth i l d).
Proof.
  revert i. induction l as [|a l IH]; intros [|i] Hi; simpl in *; try lia.
  - reflexivity.
  - apply IH. lia.
Qed.

Lemma grid_shape_row nrows ncols grid r :
  grid_shape nrows ncols grid -> (r < nrows)%nat ->
  length (nth r grid []) = ncols.
Proof.
  intros [Hlen Hrows] Hr. rewrite Forall_forall in Hrows.
  apply Hrows, nth_In. lia.
Qed.

Lemma grid_append_ok nrows ncols grid r c span :
  grid_shape nrows ncols grid -> (r < nrows)%nat -> (c < ncols)%nat ->
  exists grid',
    grid_append grid r c span = Some grid'
    /\ grid_shape nrows ncols grid'
    /\ forall r' c',
        cell_at grid' r' c' =
        cell_at grid r' c'
                ++ (if (r' =? r)%nat && (c' =? c)%nat then [span] else []).
Proof.
  intros Hshape Hr Hc.
  pose proof (grid_shape_row _ _ _ _ Hshape Hr) as Hrow.
  destruct Hshape as [Hlen Hrows].
  unfold grid_append.
  rewrite (nth_error_nth_lt grid r []) by lia.
  rewrite (nth_error_nth_lt (nth r grid []) c []) by lia.
  eexists. split; [reflexivity|]. split.
  - split; [now rewrite length_list_set|].
    apply Forall_list_set; [exact Hrows|]. now rewrite length_list_set.
  - intros r' c'. unfold cell_at.
    rewrite nth_list_set by lia.
    destruct (r' =? r)%nat eqn:Er; simpl.
    + apply Nat.eqb_eq in Er. subst r'.
      rewrite nth_list_set by lia.
      destruct (c' =? c)%nat eqn:Ec.
      * apply Nat.eqb_eq in Ec. now subst c'.
      * now rewrite app_nil_r.
    + now rewrite app_nil_r.
Qed.

Lemma assign_spans_ok x_clusters y_clusters spans :
  x_clusters <> [] -> y_clusters <> [] ->
  forall grid,
    grid_shape (length y_clusters) (length x_clusters) grid ->
    exists grid',
      assign_spans spans x_clusters y_clusters grid = Some grid'
      /\ grid_shape (length y_clusters) (length x_clusters) grid'
      /\ forall r c,
          cell_at grid' r c =
          cell_at grid r c
                  ++ filter (fun span =>
                               (r =? row_of y_clusters span)%nat
                               && (c =? col_of x_clusters span)%nat)
                            spans.
Proof.
  intros Hx Hy.
  induction spans as [|span spans IH]; intros grid Hshape; simpl.
  - exists grid. split; [reflexivity|]. split; [exact Hshape|].
    intros r c. now rewrite app_nil_r.
  - destruct (grid_append_ok _ _ grid
                (assign_to_cluster (Span.y span) y_clusters 3)
                (assign_to_cluster (Span.x span) x_clusters 5) span Hshape)
      as [grid1 [-> [Hshape1 Hcells1]]];
      try (now apply assign_to_cluster_lt).
    destruct (IH grid1 Hshape1) as [grid' [-> [Hshape' Hcells']]].
    exists grid'. split; [reflexivity|]. split; [exact Hshape'|].
    intros r c. rewrite Hcells', Hcells1, <- app_assoc. f_equal.
    unfold row_of, col_of.
    destruct ((r =? _)%nat && (c =? _)%nat); reflexivity.
Qed.

(** ** The lines appended for a row and for a page *)

Lemma cell_lines_fold row :
  forall lines,
    fold_left (fun lines cell => append lines (cell_line cell)) row lines
    = lines ++ map cell_line row.
Proof.
  induction row as [|cell row IH]; intros lines; simpl.
  - now rewrite app_nil_r.
  - rewrite IH. unfold append. now rewrite <- app_assoc.
Qed.

Lemma filled_cols_zero (row : list Cell) :
  (length (filter (fun cell => negb (match cell with [] => true | _ => false end))
                  row) =? 0)%nat
  = forallb is_empty row.
Proof.
  induction row as [|cell row IH]; simpl; [reflexivity|].
  destruct cell; simpl; [exact IH|reflexivity].
Qed.

Lemma emit_row_lines x_clusters lines row :
  emit_row x_clusters lines row = lines ++ row_lines (length x_clusters) row.
Proof.
  unfold emit_row, row_lines. rewrite filled_cols_zero.
  destruct (forallb is_empty row); [now rewrite app_nil_r|].
  rewrite cell_lines_fold. unfold append, grid_block.
  now rewrite <- !app_assoc.
Qed.

Lemma emit_rows_lines x_clusters (grid : Grid) :
  forall lines,
    fold_left (emit_row x_clusters) grid lines
    = lines ++ flat_map (row_lines (length x_clusters)) grid.
Proof.
  induction grid as [|row grid IH]; intros lines; simpl.
  - now rewrite app_nil_r.
  - now rewrite IH, emit_row_lines, <- app_assoc.
Qed.

Lemma page_break_append lines page_idx :
  (if (0 <? page_idx)%nat
   then append (append lines (of_string "#pagebreak()")) []
   else lines)
  = lines ++ page_break page_idx.
Proof.
  unfold page_break, append. destruct (0 <? page_idx)%nat.
  - now rewrite <- app_assoc.
  - now rewrite app_nil_r.
Qed.

Lemma nth_map_const {A B} (v : B) (l : list A) n d :
  nth n (map (fun _ => v) l) d = if (n <? length l)%nat then v else d.
Proof.
  revert n. induction l as [|a l IH]; intros [|n]; simpl; try reflexivity.
  apply IH.
Qed.

Lemma cell_at_empty_grid (x_clusters y_clusters : list Q) r c :
  cell_at (map (fun _ => map (fun _ => []) x_clusters) y_clusters) r c = [].
Proof.
  unfold cell_at. rewrite nth_map_const.
  destruct (r <? length y_clusters)%nat.
  - rewrite nth_map_const. now destruct (c <? length x_clusters)%nat.
  - now destruct c.
Qed.

Lemma empty_grid_shape (x_clusters y_clusters : list Q) :
  grid_shape (length y_clusters) (length x_clusters)
             (map (fun _ => map (fun _ => []) x_clusters) y_clusters).
Proof.
  split; [apply length_map|].
  apply Forall_forall. intros row Hrow. apply in_map_iff in Hrow.
  destruct Hrow as [_ [<- _]]. apply length_map.
Qed.

Lemma nth_map_default {A B} (f : A -> B) l n d d' :
  f d = d' -> nth n (map f l) d' = f (nth n l d).
Proof. intros <-. apply map_nth. Qed.

Lemma cell_at_sorted (grid : Grid) r c :
  cell_at (map (map sort_by_x) grid) r c = sort_by_x (cell_at grid r c).
Proof.
  unfold cell_at.
  rewrite (nth_map_default (map sort_by_x) grid r [] []) by reflexivity.
  now rewrite (nth_map_default sort_by_x (nth r grid []) c [] []).
Qed.

Lemma sorted_grid_shape nrows ncols (grid : Grid) :
  grid_shape nrows ncols grid ->
  grid_shape nrows ncols (map (map sort_by_x) grid).
Proof.
  intros [Hlen Hrows]. split; [now rewrite length_map|].
  apply Forall_forall. intros row Hrow. apply in_map_iff in Hrow.
  destruct Hrow as [row0 [<- Hin]]. rewrite length_map.
  rewrite Forall_forall in Hrows. now apply Hrows.
Qed.

Lemma page_spans_nil page :
  page_spans page = [] <-> extract_all_spans page = [].
Proof.
  unfold page_spans, mark_underlines.
  destruct (extract_all_spans page); simpl; split; congruence.
Qed.

Lemma process_page_empty lines page_idx page :
  page_spans page = [] ->
  process_page lines page_idx page = Some (lines ++ page_break page_idx).
Proof.
  intros Hnil. unfold process_page. fold (page_spans page).
  now rewrite Hnil, page_break_append.
Qed.

Lemma process_page_grid page :
  page_spans page <> [] ->
  let spans := page_spans page in
  let x_clusters := cluster_positions (map Span.x spans) 5 in
  let y_clusters := cluster_positions (map Span.y spans) 3 in
  exists grid : Grid,
    grid_shape (length y_clusters) (length x_clusters) grid
    /\ (forall r c,
          cell_at grid r c
          = sort_by_x (filter (fun span =>
                                 (r =? row_of y_clusters span)%nat
                                 && (c =? col_of x_clusters span)%nat)
                              spans))
    /\ assign_spans spans x_clusters y_clusters
         (map (fun _ => map (fun _ => []) x_clusters) y_clusters) <> None
    /\ forall lines page_idx,
        process_page lines page_idx page
        = Some (lines ++ page_break page_idx
                      ++ flat_map (row_lines (length x_clusters)) grid
                      ++ [[]]).
Proof.
  intros Hne spans x_clusters y_clusters.
  assert (Hx : x_clusters <> []).
  { apply cluster_positions_nonempty. subst spans.
    destruct (page_spans page); [congruence|discriminate]. }
  assert (Hy : y_clusters <> []).
  { apply cluster_positions_nonempty. subst spans.
    destruct (page_spans page); [congruence|discriminate]. }
  destruct (assign_spans_ok x_clusters y_clusters spans Hx Hy _
              (empty_grid_shape x_clusters y_clusters))
    as [grid [Hassign [Hshape Hcells]]].
  exists (map (map sort_by_x) grid).
  split; [now apply sorted_grid_shape|]. split; [|split].
  - intros r c. now rewrite cell_at_sorted, Hcells, cell_at_empty_grid.
  - now rewrite Hassign.
  - intros lines page_idx.
    unfold process_page. fold (page_spans page). fold spans.
    rewrite page_break_append.
    assert (Hmatch : forall (B : Type) (l : list Span.t) (a b : B),
               l <> [] -> match l with [] => a | _ :: _ => b end = b)
      by (intros B [|? ?] a b Hl; congruence).
    rewrite Hmatch by exact Hne.
    subst x_clusters y_clusters.
    rewrite Hassign, emit_rows_lines. unfold append.
    now rewrite <- !app_assoc.
Qed.

Lemma grid_rows_columns nrows ncols (grid : Grid) row :
  grid_shape nrows ncols grid -> In row grid ->
  length (map cell_line row) = ncols.
Proof.
  intros [_ Hrows] Hin. rewrite length_map.
  rewrite Forall_forall in Hrows. now apply Hrows.
Qed.

(** C8: for a page with at least one span there is a grid with one row per
    y-cluster and, in every row, one cell per x-cluster, the cell at (r, c)
    holding the spans assigned to row r and column c in ascending x; the lines
    of the page are, row after row, nothing for a row whose cells are all
    empty and otherwise one grid block that states the page's column count and
    lists one line per column in column order, the formatted cell or the empty
    placeholder.  Spans at x = 0, 0, 50, 100 on the lines y = 0 and y = 20 give
    two blocks of three columns each, with an empty placeholder where a row
    has no span in a column. *)
Theorem page_rows_share_columns :
  (forall page : Page.t,
      extract_all_spans page <> [] ->
      let spans := page_spans page in
      let x_clusters := cluster_positions (map Span.x spans) 5 in
      let y_clusters := cluster_positions (map Span.y spans) 3 in
      exists grid : Grid,
        grid_shape (length y_clusters) (length x_clusters) grid
        /\ (forall r c,
              cell_at grid r c
              = sort_by_x (filter (fun span =>
                                     (r =? row_of y_clusters span)%nat
                                     && (c =? col_of x_clusters span)%nat)
                                  spans))
        /\ (forall lines page_idx,
              process_page lines page_idx page
              = Some (lines ++ page_break page_idx
                            ++ flat_map (row_lines (length x_clusters)) grid
                            ++ [[]]))
        /\ (forall row, In row grid ->
              (forallb is_empty row = true ->
               row_lines (length x_clusters) row = [])
              /\ (forallb is_empty row = false ->
                  row_lines (length x_clusters) row
                  = [ of_string "#grid(";
                      of_string "  columns: " ++ str_of_nat (length x_clusters)
                                ++ of_string ",";
                      of_string "  gutter: 1em," ]
                    ++ map cell_line row ++ [ of_string ")" ])
              /\ length (map cell_line row) = length x_clusters))
  /\ cell_line [] = of_string "  [],"
  /\ (forall span cell,
         cell_line (span :: cell)
         = of_string "  [" ++ cell_content (span :: cell) ++ of_string "],")
  /\ cluster_positions (map Span.x (page_spans three_column_page)) 5
     = [0; 50; 100]
  /\ cluster_positions (map Span.y (page_spans three_column_page)) 3
     = [0; 20]
  /\ process_page [] 0 three_column_page
     = Some (map of_string
               [ "#grid("; "  columns: 3,"; "  gutter: 1em,";
                 "  [A],"; "  [C],"; "  [],"; ")";
                 "#grid("; "  columns: 3,"; "  gutter: 1em,";
                 "  [B],"; "  [],"; "  [D],"; ")";
                 "" ]%string).
Proof.
  split; [|repeat split; try reflexivity; vm_compute; reflexivity].
  intros page Hspans spans x_clusters y_clusters.
  assert (Hne : page_spans page <> []) by now rewrite page_spans_nil.
  destruct (process_page_grid page Hne)
    as [grid [Hshape [Hcells [_ Hlines]]]].
  exists grid. split; [exact Hshape|]. split; [exact Hcells|].
  split; [exact Hlines|].
  intros row Hrow. unfold row_lines.
  split; [now intros ->|]. split; [now intros ->|].
  eapply grid_rows_columns; eassumption.
Qed.

Lemma page_rows_share_columns_witness :
  extract_all_spans three_column_page <> []
  /\ exists grid : Grid,
      grid_shape 2 3 grid
      /\ process_page [] 1 three_column_page
         = Some (page_break 1 ++ flat_map (row_lines 3) grid ++ [[]]).
Proof.
  assert (Hspans : extract_all_spans three_column_page <> [])
    by (vm_compute; discriminate).
  split; [exact Hspans|].
  destruct (proj1 page_rows_share_columns three_column_page Hspans)
    as [grid [Hshape [_ [Hlines _]]]].
  exists grid. split; [exact Hshape|]. exact (Hlines [] 1%nat).
Defined.

(** C10: on a non-empty list of centers [assign_to_cluster] returns an index
    below the length of the list; for a page with at least one span both lists
    of centers are non-empty, every span's row and column index lies inside
    the grid, and none of the lookups [grid[row_idx][col_idx]] fails. *)
Theorem grid_lookup_in_bounds :
  (forall (value : Q) (clusters : list Q) (tolerance : Q),
      clusters <> [] ->
      (0 <= assign_to_cluster value clusters tolerance < length clusters)%nat)
  /\ (forall page : Page.t,
         extract_all_spans page <> [] ->
         let spans := page_spans page in
         let x_clusters := cluster_positions (map Span.x spans) 5 in
         let y_clusters := cluster_positions (map Span.y spans) 3 in
         x_clusters <> [] /\ y_clusters <> []
         /\ (forall span,
               (row_of y_clusters span < length y_clusters)%nat
               /\ (col_of x_clusters span < length x_clusters)%nat)
         /\ exists grid,
             assign_spans spans x_clusters y_clusters
               (map (fun _ => map (fun _ => []) x_clusters) y_clusters)
             = Some grid
             /\ grid_shape (length y_clusters) (length x_clusters) grid).
Proof.
  split.
  - intros value clusters tolerance Hne.
    split; [lia|now apply assign_to_cluster_lt].
  - intros page Hspans spans x_clusters y_clusters.
    assert (Hne : spans <> []) by (subst spans; now rewrite page_spans_nil).
    assert (Hx : x_clusters <> []).
    { apply cluster_positions_nonempty.
      destruct spans; [congruence|discriminate]. }
    assert (Hy : y_clusters <> []).
    { apply cluster_positions_nonempty.
      destruct spans; [congruence|discriminate]. }
    split; [exact Hx|]. split; [exact Hy|]. split.
    + intros span. split; now apply assign_to_cluster_lt.
    + destruct (assign_spans_ok x_clusters y_clusters spans Hx Hy _
                  (empty_grid_shape x_clusters y_clusters))
        as [grid [Hassign [Hshape _]]].
      now exists grid.
Qed.

Lemma grid_lookup_in_bounds_witness :
  let clusters : list Q := [7; 30] in
  (clusters <> []
   /\ (0 <= assign_to_cluster 31 clusters 5 < length clusters)%nat)
  /\ (extract_all_spans drifting_page <> []
      /\ cluster_positions (map Span.x (page_spans drifting_page)) 5 <> []).
Proof.
  intros clusters.
  assert (Hne : clusters <> []) by discriminate.
  assert (Hspans : extract_all_spans drifting_page <> [])
    by (vm_compute; discriminate).
  split.
  - split; [exact Hne|].
    exact (proj1 grid_lookup_in_bounds 31 clusters 5 Hne).
  - split; [exact Hspans|].
    exact (proj1 (proj2 grid_lookup_in_bounds drifting_page Hspans)).
Defined.

(** C1, on [drifting_page]: the x-values 100, 105, 110, 115 chain into one
    cluster with center 107.5, the value 100 is farther than 5 from both
    centers, the loop of [assign_to_cluster] ends without a match, and the
    fallback puts the spans at x = 100 and x = 115 into column 0, next to the
    span at x = 0. *)
Theorem assign_to_cluster_fallback_reached :
  let spans := page_spans drifting_page in
  let x_positions := map Span.x spans in
  let x_clusters := cluster_positions x_positions 5 in
  x_positions = [0; 100; 105; 110; 115]
  /\ chain_all 5 (sorted (set x_positions)) = [[0]; [100; 105; 110; 115]]
  /\ Forall2 Qeq x_clusters [0; 107.5]
  /\ assign_loop 100 x_clusters 5 0 = None
  /\ Forall (fun center => ~ Qabs (100 - center) <= 5) x_clusters
  /\ assign_to_cluster 100 x_clusters 5 = 0%nat
  /\ process_page [] 0 drifting_page
     = Some (map of_string
               [ "#grid("; "  columns: 2,"; "  gutter: 1em,";
                 "  [ABE],"; "  [CD],"; ")"; "" ]%string).
Proof.
  intros spans x_positions x_clusters.
  assert (Hnone : assign_loop 100 x_clusters 5 0 = None)
    by (vm_compute; reflexivity).
  split; [reflexivity|]. split; [reflexivity|].
  split; [repeat constructor|]. split; [exact Hnone|].
  split; [now apply (assign_loop_none 100 5 x_clusters 0)|].
  split; vm_compute; reflexivity.
Qed.

(** ** Bullet cells *)

Lemma bullet_loop_later cell :
  forall i formatted_spans,
    bullet_loop cell (S i) formatted_spans
    = formatted_spans ++ map format_span cell.
Proof.
  induction cell as [|span cell IH]; intros i formatted_spans; simpl.
  - now rewrite app_nil_r.
  - now rewrite IH, <- app_assoc.
Qed.

Lemma bullet_loop_first first rest :
  bullet_loop (first :: rest) 0 []
  = if is_bullet_glyph (strip (Span.text first))
    then map format_span rest
    else map format_span (first :: rest).
Proof.
  cbn [bullet_loop Nat.eqb andb].
  destruct (is_bullet_glyph (strip (Span.text first)));
    now rewrite bullet_loop_later.
Qed.

(** C2, on cells that begin with a glyph of the list: the test on the first
    span accepts U+2022, U+25CF and U+25E6 alike, and a cell whose first span
    is U+2022 alone loses that span and gets the list marker; but a cell whose
    first span is U+25CF or U+25E6 alone keeps that span and gets no list
    marker, because the test on the concatenated text looks for U+2022 only.
    In the branch for U+2022 a first span that carries text after the glyph
    is kept whole behind the list marker. *)
Theorem cell_content_glyph_list_ignored :
  (is_bullet_glyph [bullet] = true
   /\ is_bullet_glyph [black_circle] = true
   /\ is_bullet_glyph [white_bullet] = true)
  /\ (strip (hd [] (map Span.text bullet_cell)) = [bullet]
      /\ cell_content bullet_cell
         = of_string "- " ++ concat (map format_span (tl bullet_cell)))
  /\ (startswith (strip (concat (map Span.text black_circle_cell)))
                 [black_circle] = true
      /\ strip (hd [] (map Span.text black_circle_cell)) = [black_circle]
      /\ cell_content black_circle_cell
         = black_circle :: of_string " Item one"
      /\ cell_content black_circle_cell
         <> of_string "- "
            ++ concat (map format_span (tl black_circle_cell)))
  /\ (startswith (strip (concat (map Span.text white_bullet_cell)))
                 [white_bullet] = true
      /\ strip (hd [] (map Span.text white_bullet_cell)) = [white_bullet]
      /\ cell_content white_bullet_cell
         = white_bullet :: of_string " Item one"
      /\ cell_content white_bullet_cell
         <> of_string "- "
            ++ concat (map format_span (tl white_bullet_cell)))
  /\ cell_content inline_bullet_cell
     = of_string "- " ++ bullet :: of_string " Item".
Proof.
  repeat split; try reflexivity; vm_compute; discriminate.
Qed.

(** ** Pages one after the other *)

(** The lines a page appends do not depend on the lines before it, and on
    its index only through the separator. *)
Lemma process_page_appends page :
  exists body,
    (page_spans page = [] -> body = [])
    /\ forall lines page_idx,
        process_page lines page_idx page
        = Some (lines ++ page_break page_idx ++ body).
Proof.
  destruct (page_spans page) as [|span rest] eqn:E.
  - exists []. split; [reflexivity|]. intros lines page_idx.
    rewrite app_nil_r. now apply process_page_empty.
  - assert (Hne : page_spans page <> []) by (rewrite E; discriminate).
    destruct (process_page_grid page Hne) as [grid [_ [_ [_ Hlines]]]].
    eexists. split; [discriminate|]. intros lines page_idx. apply Hlines.
Qed.

Lemma process_pages_later doc :
  exists rest_lines,
    forall lines page_idx,
      (0 < page_idx)%nat ->
      process_pages lines page_idx doc = Some (lines ++ rest_lines).
Proof.
  induction doc as [|page doc [rest_lines IH]].
  - exists []. intros lines page_idx _. simpl. now rewrite app_nil_r.
  - destruct (process_page_appends page) as [body [_ Hpage]].
    exists (page_break 1 ++ body ++ rest_lines).
    intros lines page_idx Hidx. simpl. rewrite Hpage.
    rewrite IH by lia.
    replace (page_break page_idx) with (page_break 1).
    + now rewrite <- !app_assoc.
    + unfold page_break. destruct page_idx; [lia|reflexivity].
Qed.

Lemma process_pages_total doc lines page_idx :
  exists out, process_pages lines page_idx doc = Some (lines ++ out).
Proof.
  destruct doc as [|page doc]; simpl.
  - exists []. now rewrite app_nil_r.
  - destruct (process_page_appends page) as [body [_ Hpage]].
    destruct (process_pages_later doc) as [rest_lines Hrest].
    rewrite Hpage, Hrest by lia.
    eexists. now rewrite <- !app_assoc.
Qed.

Lemma process_pages_app doc1 doc2 :
  forall lines page_idx,
    process_pages lines page_idx (doc1 ++ doc2)
    = match process_pages lines page_idx doc1 with
      | Some lines' => process_pages lines' (page_idx + length doc1) doc2
      | None => None
      end.
Proof.
  induction doc1 as [|page doc1 IH]; intros lines page_idx; simpl.
  - now rewrite Nat.add_0_r.
  - destruct (process_page lines page_idx page) as [lines'|]; [|reflexivity].
    rewrite IH. now rewrite Nat.add_succ_r.
Qed.

(** C3, as the code has it: a page without spans appends no grid block and
    no closing blank line; it appends nothing when it is the first page, and
    the page-break marker with its blank line otherwise.  A document that has
    other pages differs from the same document without the empty page by
    exactly one page-break marker and blank line, all other lines being the
    same; a document of one empty page is the header alone. *)
Theorem empty_page_only_breaks
    (font : str) (before : list Page.t) (page : Page.t) (after : list Page.t)
    (Hempty : extract_all_spans page = []) :
  (forall lines page_idx,
      process_page lines page_idx page
      = Some (lines ++ if (0 <? page_idx)%nat
                       then [of_string "#pagebreak()"; []] else []))
  /\ generate_typst_lines font [page] = Some (header font)
  /\ (before ++ after <> [] ->
      exists lines_before lines_after,
        generate_typst_lines font (before ++ after)
        = Some (lines_before ++ lines_after)
        /\ generate_typst_lines font (before ++ page :: after)
           = Some (lines_before ++ [of_string "#pagebreak()"; []]
                                ++ lines_after)).
Proof.
  apply page_spans_nil in Hempty.
  assert (Hpage : forall lines page_idx,
             process_page lines page_idx page
             = Some (lines ++ page_break page_idx))
    by (intros; now apply process_page_empty).
  split; [exact Hpage|]. split.
  - unfold generate_typst_lines. cbn [process_pages]. rewrite Hpage.
    change (page_break 0) with (@nil str). now rewrite app_nil_r.
  - intros Hne. unfold generate_typst_lines.
    generalize (header font) as head. intros head.
    change [of_string "#pagebreak()"; []] with (page_break 1).
    destruct before as [|first before].
    + destruct after as [|next after]; [now contradiction Hne|].
      cbn [app process_pages].
      destruct (process_page_appends next) as [body [_ Hnext]].
      destruct (process_pages_later after) as [rest_lines Hrest].
      rewrite Hpage, !Hnext, !Hrest by lia.
      exists head, (body ++ rest_lines).
      change (page_break 0) with (@nil str).
      rewrite !app_nil_r. cbn [app].
      split; now rewrite <- !app_assoc.
    + rewrite !process_pages_app.
      destruct (process_pages_total (first :: before) head 0) as [out ->].
      destruct (process_pages_later after) as [rest_lines Hrest].
      exists (head ++ out), rest_lines.
      cbn [process_pages]. rewrite Hpage.
      rewrite !Hrest by (cbn [length]; lia).
      replace (page_break (0 + length (first :: before))) with (page_break 1)
        by reflexivity.
      split; [reflexivity|].
      now rewrite <- !app_assoc.
Qed.

Lemma empty_page_only_breaks_witness :
  let font := of_string "Calibri" in
  extract_all_spans blank_page = []
  /\ [three_column_page] ++ [drifting_page] <> []
  /\ exists lines_before lines_after,
      generate_typst_lines font ([three_column_page] ++ [drifting_page])
      = Some (lines_before ++ lines_after)
      /\ generate_typst_lines
           font ([three_column_page] ++ blank_page :: [drifting_page])
         = Some (lines_before ++ [of_string "#pagebreak()"; []]
                              ++ lines_after).
Proof.
  intros font.
  assert (Hempty : extract_all_spans blank_page = []) by reflexivity.
  assert (Hne : [three_column_page] ++ [drifting_page] <> []) by discriminate.
  split; [exact Hempty|]. split; [exact Hne|].
  exact (proj2 (proj2 (empty_page_only_breaks
                         font [three_column_page] blank_page [drifting_page]
                         Hempty))
               Hne).
Defined.

(** The blank second page of a document has no spans, and processing it
    appends two lines; the document with it is two lines longer than the
    document without it. *)
Lemma empty_page_counterexample :
  extract_all_spans blank_page = []
  /\ process_page [] 1 blank_page = Some [of_string "#pagebreak()"; []]
  /\ process_page [] 1 blank_page <> Some []
  /\ generate_typst_lines (of_string "Calibri") [three_column_page; blank_page]
     <> generate_typst_lines (of_string "Calibri") [three_column_page].
Proof.
  repeat split; try reflexivity; vm_compute; discriminate.
Qed.

(** * Further properties of the program *)

(** ** escape_typst can be read back *)

Lemma escape_typst_flat_map text : escape_typst text = flat_map escape_char text.
Proof. rewrite escape_typst_in_order. apply escape_in_order_flat_map. Qed.

Lemma not_special_not_backslash c :
  is_special c = false -> (c =? backslash)%N = false.
Proof.
  unfold is_special, special_chars. cbn [existsb].
  intros H. apply orb_false_iff in H. tauto.
Qed.

Lemma backslash_special : is_special backslash = true.
Proof. reflexivity. Qed.

(** X1: removing the escaping backslashes from [escape_typst text] gives
    [text] back, and in [escape_typst text] every special character is
    escaped and every backslash escapes a special character. *)
Theorem escape_typst_round_trip (text : str) :
  unescape (escape_typst text) = text
  /\ well_escaped (escape_typst text) = true.
Proof.
  rewrite escape_typst_flat_map.
  induction text as [|c text [IHu IHw]]; [now split|].
  cbn [flat_map]. unfold escape_char at 1 3. fold (is_special c).
  destruct (is_special c) eqn:E.
  - cbn [app unescape well_escaped]. rewrite N.eqb_refl, E, IHu, IHw.
    now split.
  - pose proof (not_special_not_backslash c E) as Hc.
    cbn [app unescape well_escaped]. rewrite Hc, E, IHu, IHw. now split.
Qed.

Lemma escape_char_length c :
  length (escape_char c) = if is_special c then 2%nat else 1%nat.
Proof. unfold escape_char. fold (is_special c). now destruct (is_special c). Qed.

(** X2: [escape_typst] works character by character: it distributes over
    concatenation, lengthens the text by one character per special character,
    and returns the text unchanged exactly when it has no special
    character. *)
Theorem escape_typst_per_character (a b : str) :
  escape_typst (a ++ b) = escape_typst a ++ escape_typst b
  /\ length (escape_typst a) = (length a + length (filter is_special a))%nat
  /\ (escape_typst a = a <-> filter is_special a = []).
Proof.
  assert (Hlen : forall t,
             length (escape_typst t)
             = (length t + length (filter is_special t))%nat).
  { intros t. rewrite escape_typst_flat_map.
    induction t as [|c t IH]; [reflexivity|].
    cbn [flat_map filter]. rewrite length_app, escape_char_length, IH.
    destruct (is_special c); simpl; lia. }
  split; [|split].
  - rewrite !escape_typst_flat_map. apply flat_map_app.
  - apply Hlen.
  - split.
    + intros Heq. pose proof (Hlen a) as H. rewrite Heq in H.
      destruct (filter is_special a); [reflexivity|simpl in H; lia].
    + intros Hnone. rewrite escape_typst_flat_map.
      induction a as [|c a IH]; [reflexivity|].
      cbn [flat_map filter] in *. unfold escape_char at 1.
      fold (is_special c). destruct (is_special c); [discriminate|].
      cbn [app]. f_equal. now apply IH.
Qed.

(** ** What extract_all_spans lets through *)

Lemma lstrip_snoc text c : isspace c = false -> lstrip (text ++ [c]) <> [].
Proof.
  intros Hc. induction text as [|d text IH]; cbn [app lstrip].
  - now rewrite Hc.
  - destruct (isspace d); [exact IH|discriminate].
Qed.

Lemma strip_nonempty text :
  forallb isspace text = false -> strip text <> [].
Proof.
  unfold strip, rstrip.
  induction text as [|c text IH]; [discriminate|].
  cbn [forallb lstrip]. destruct (isspace c) eqn:E.
  - exact IH.
  - intros _ Hnil.
    assert (Hrev : lstrip (rev (c :: text)) = [])
      by (destruct (lstrip (rev (c :: text))); [reflexivity|
          apply (f_equal (@length _)) in Hnil;
          rewrite length_rev in Hnil; discriminate]).
    cbn [rev] in Hrev. now apply lstrip_snoc in Hrev.
Qed.

Lemma keep_span_data_text span_data :
  keep_span_data span_data = true ->
  SpanData.text span_data <> []
  /\ forallb isspace (SpanData.text span_data) = false.
Proof.
  unfold keep_span_data, str_isspace.
  destruct (SpanData.text span_data) as [|c text]; [discriminate|].
  cbn [orb]. rewrite negb_true_iff. intros H. now split.
Qed.

Lemma extract_all_spans_In page span :
  In span (extract_all_spans page) <->
  exists block line span_data,
    In block (Page.blocks page) /\ Block.type block = 0%Z
    /\ In line (Block.lines block) /\ In span_data (Line.spans line)
    /\ keep_span_data span_data = true /\ span = span_of_data span_data.
Proof.
  unfold extract_all_spans. rewrite in_flat_map. split.
  - intros [block [Hblock Hin]].
    destruct (Block.type block =? 0)%Z eqn:E; [|contradiction].
    apply Z.eqb_eq in E. apply in_flat_map in Hin.
    destruct Hin as [line [Hline Hin]]. apply in_map_iff in Hin.
    destruct Hin as [span_data [<- Hin]]. apply filter_In in Hin.
    exists block, line, span_data. tauto.
  - intros [block [line [span_data [Hb [Ht [Hl [Hs [Hk ->]]]]]]]].
    exists block. split; [exact Hb|].
    rewrite Ht. cbn. apply in_flat_map. exists line. split; [exact Hl|].
    apply in_map, filter_In. now split.
Qed.

Lemma extract_all_spans_Forall page :
  Forall (fun span =>
            Span.is_underlined span = false
            /\ Span.text span <> []
            /\ str_isspace (Span.text span) = false
            /\ strip (Span.text span) <> [])
         (extract_all_spans page).
Proof.
  apply Forall_forall. intros span Hin.
  apply extract_all_spans_In in Hin.
  destruct Hin as [_ [_ [span_data [_ [_ [_ [_ [Hk ->]]]]]]]].
  apply keep_span_data_text in Hk. destruct Hk as [Hne Hsp].
  unfold span_of_data.
  destruct (SpanData.bbox span_data) as [[[b0 b1] b2] b3]. cbn.
  split; [reflexivity|]. split; [exact Hne|]. split.
  - unfold str_isspace. now destruct (SpanData.text span_data).
  - now apply strip_nonempty.
Qed.

(** X3: every span that [extract_all_spans] returns comes from a span of a
    text block (type 0), is not underlined, and has a text that is neither
    empty nor made of whitespace only, so that its stripped text is not empty
    either; spans of other blocks and blank spans are left out. *)
Theorem extract_all_spans_non_blank (page : Page.t) :
  Forall (fun span =>
            Span.is_underlined span = false
            /\ Span.text span <> []
            /\ str_isspace (Span.text span) = false
            /\ strip (Span.text span) <> [])
         (extract_all_spans page)
  /\ (forall span,
         In span (extract_all_spans page) <->
         exists block line span_data,
           In block (Page.blocks page) /\ Block.type block = 0%Z
           /\ In line (Block.lines block) /\ In span_data (Line.spans line)
           /\ SpanData.text span_data <> []
           /\ str_isspace (SpanData.text span_data) = false
           /\ span = span_of_data span_data).
Proof.
  split; [apply extract_all_spans_Forall|].
  intros span. rewrite extract_all_spans_In.
  split; intros [block [line [span_data H]]]; exists block, line, span_data.
  - destruct H as [Hb [Ht [Hl [Hs [Hk ->]]]]].
    apply keep_span_data_text in Hk. destruct Hk as [Hne Hsp].
    repeat split; try assumption.
    unfold str_isspace. now destruct (SpanData.text span_data).
  - destruct H as [Hb [Ht [Hl [Hs [Hne [Hsp ->]]]]]].
    repeat split; try assumption.
    unfold keep_span_data. rewrite Hsp.
    now destruct (SpanData.text span_data).
Qed.

(** ** Style flags of an extracted span *)

Lemma land_pow2_pos flags k :
  (0 <= k)%Z -> (Z.land flags (2 ^ k) >? 0)%Z = Z.testbit flags k.
Proof.
  intros Hk.
  assert (Hland : Z.land flags (2 ^ k)
                  = if Z.testbit flags k then (2 ^ k)%Z else 0%Z).
  { apply Z.bits_inj'. intros n Hn.
    rewrite Z.land_spec, Z.pow2_bits_eqb by assumption.
    destruct (Z.eqb_spec k n) as [<-|Hkn].
    - destruct (Z.testbit flags k) eqn:E.
      + now rewrite Z.pow2_bits_true.
      + now rewrite Z.bits_0.
    - rewrite andb_false_r. destruct (Z.testbit flags k).
      + now rewrite Z.pow2_bits_false.
      + now rewrite Z.bits_0. }
  rewrite Hland. destruct (Z.testbit flags k).
  - apply Z.gtb_lt. now apply Z.pow_pos_nonneg.
  - reflexivity.
Qed.

(** X4: the span built from a span dictionary is bold exactly when bit 4 of
    its flags is set and italic exactly when bit 1 is set, whatever the other
    bits of the flags and whatever their sign. *)
Theorem span_of_data_flags (span_data : SpanData.t) :
  Span.is_bold (span_of_data span_data)
  = Z.testbit (SpanData.flags span_data) 4
  /\ Span.is_italic (span_of_data span_data)
     = Z.testbit (SpanData.flags span_data) 1.
Proof.
  unfold span_of_data.
  destruct (SpanData.bbox span_data) as [[[b0 b1] b2] b3].
  cbn [Span.is_bold Span.is_italic].
  now rewrite !land_pow2_pos by lia.
Qed.

(** ** Underlines of a page *)

Lemma str_eqb_eq a b : str_eqb a b = true <-> a = b.
Proof.
  unfold str_eqb. destruct (list_eq_dec N.eq_dec a b); split; congruence.
Qed.

Lemma Qlt_bool_iff a b : Qlt_bool a b = true <-> a < b.
Proof.
  unfold Qlt_bool. rewrite negb_true_iff. split.
  - intros H. apply Qnot_le_lt. intros Hle.
    apply Qle_bool_iff in Hle. congruence.
  - intros H. destruct (Qle_bool b a) eqn:E; [|reflexivity].
    apply Qle_bool_iff in E. lra.
Qed.

Lemma extract_underlines_In page ul :
  In ul (extract_underlines page) <->
  exists drawing,
    In drawing (Page.drawings page)
    /\ Drawing.type drawing = of_string "f"
    /\ Rect.height (Drawing.rect drawing) < 5
    /\ ul = underline_of_rect (Drawing.rect drawing).
Proof.
  unfold extract_underlines. rewrite in_flat_map.
  split; intros [drawing [Hin H]]; exists drawing; (split; [exact Hin|]).
  - destruct (str_eqb (Drawing.type drawing) (of_string "f")) eqn:Et;
      [|contradiction].
    destruct (Qlt_bool (Rect.height (Drawing.rect drawing)) 5) eqn:Eh;
      [|contradiction].
    apply str_eqb_eq in Et. apply Qlt_bool_iff in Eh.
    destruct H as [<-|[]]. now repeat split.
  - destruct H as [Ht [Hh ->]].
    apply str_eqb_eq in Ht. apply Qlt_bool_iff in Hh.
    rewrite Ht, Hh. now left.
Qed.

Lemma mark_span_nil_underlines spans : mark_underlines spans [] = spans.
Proof. unfold mark_underlines. cbn [mark_span]. apply map_id. Qed.

(** X5: the underlines of a page are exactly the rectangles of its fill
    drawings (type [f]) that are less than 5 high, each with the mean of its
    top and bottom as [y]; a page without such a drawing has no underline,
    and its spans reach the grid as [extract_all_spans] returned them, none
    underlined. *)
Theorem extract_underlines_fill_bars (page : Page.t) :
  (forall ul,
      In ul (extract_underlines page) <->
      exists drawing,
        In drawing (Page.drawings page)
        /\ Drawing.type drawing = of_string "f"
        /\ Rect.height (Drawing.rect drawing) < 5
        /\ Underline.y ul
           = (Rect.y0 (Drawing.rect drawing) + Rect.y1 (Drawing.rect drawing))
             / 2
        /\ Underline.x0 ul = Rect.x0 (Drawing.rect drawing)
        /\ Underline.x1 ul = Rect.x1 (Drawing.rect drawing))
  /\ ((forall drawing,
          In drawing (Page.drawings page) ->
          Drawing.type drawing <> of_string "f"
          \/ 5 <= Rect.height (Drawing.rect drawing)) ->
      extract_underlines page = []
      /\ page_spans page = extract_all_spans page
      /\ Forall (fun span => Span.is_underlined span = false)
                (page_spans page)).
Proof.
  split.
  - intros ul. rewrite extract_underlines_In.
    split; intros [drawing [Hin [Ht [Hh H]]]]; exists drawing;
      (split; [exact Hin|]); (split; [exact Ht|]); (split; [exact Hh|]).
    + now subst ul.
    + destruct ul as [y x0 x1]. cbn in H. destruct H as [-> [-> ->]].
      reflexivity.
  - intros Hnone.
    assert (Hnil : extract_underlines page = []).
    { destruct (extract_underlines page) as [|ul uls] eqn:E; [reflexivity|].
      assert (Hin : In ul (extract_underlines page))
        by (rewrite E; now left).
      apply extract_underlines_In in Hin.
      destruct Hin as [drawing [Hin [Ht [Hh _]]]].
      destruct (Hnone drawing Hin) as [Hnt|Hge]; [contradiction|lra]. }
    split; [exact Hnil|].
    assert (Hspans : page_spans page = extract_all_spans page)
      by (unfold page_spans; rewrite Hnil; apply mark_span_nil_underlines).
    split; [exact Hspans|]. rewrite Hspans.
    eapply Forall_impl; [|apply extract_all_spans_Forall].
    now intros span [Hu _].
Qed.

Lemma extract_underlines_fill_bars_witness :
  (forall drawing,
      In drawing (Page.drawings three_column_page) ->
      Drawing.type drawing <> of_string "f"
      \/ 5 <= Rect.height (Drawing.rect drawing))
  /\ page_spans three_column_page = extract_all_spans three_column_page.
Proof.
  assert (Hnone : forall drawing,
             In drawing (Page.drawings three_column_page) ->
             Drawing.type drawing <> of_string "f"
             \/ 5 <= Rect.height (Drawing.rect drawing))
    by (intros drawing []).
  split; [exact Hnone|].
  exact (proj1 (proj2 (proj2 (extract_underlines_fill_bars three_column_page)
                             Hnone))).
Defined.

(** ** What mark_underlines leaves alone *)

Lemma mark_span_fields span underlines :
  let span' := mark_span span underlines in
  Span.text span' = Span.text span
  /\ Span.x span' = Span.x span /\ Span.y span' = Span.y span
  /\ Span.width span' = Span.width span
  /\ Span.height span' = Span.height span
  /\ Span.is_bold span' = Span.is_bold span
  /\ Span.is_italic span' = Span.is_italic span
  /\ (Span.is_underlined span = true -> Span.is_underlined span' = true).
Proof.
  destruct (mark_span_cases span underlines) as [[-> _]|[-> _]];
    cbn; repeat split; auto.
Qed.

Lemma underline_hits_set_underlined span ul :
  underline_hits (Span.set_underlined span) ul = underline_hits span ul.
Proof. reflexivity. Qed.

Lemma mark_span_idempotent span underlines :
  mark_span (mark_span span underlines) underlines = mark_span span underlines.
Proof.
  destruct (mark_span_cases span underlines) as [[Hm [ul [Hin Hul]]]|[Hm _]];
    rewrite Hm; [|exact Hm].
  destruct (mark_span_cases (Span.set_underlined span) underlines)
    as [[-> _]|[-> _]]; [destruct span|]; reflexivity.
Qed.

(** X6: [mark_underlines] touches nothing but the underline flag: text,
    position, size, bold and italic of every span stay as they were, a span
    that was underlined stays underlined, and marking a second time with the
    same underlines changes nothing; the x- and y-values that the clustering
    sees are therefore those of the extracted spans. *)
Theorem mark_underlines_only_sets_flag
    (spans : list Span.t) (underlines : list Underline.t) :
  Forall2 (fun span span' =>
             Span.text span' = Span.text span
             /\ Span.x span' = Span.x span /\ Span.y span' = Span.y span
             /\ Span.width span' = Span.width span
             /\ Span.height span' = Span.height span
             /\ Span.is_bold span' = Span.is_bold span
             /\ Span.is_italic span' = Span.is_italic span
             /\ (Span.is_underlined span = true ->
                 Span.is_underlined span' = true))
          spans (mark_underlines spans underlines)
  /\ mark_underlines (mark_underlines spans underlines) underlines
     = mark_underlines spans underlines
  /\ map Span.x (mark_underlines spans underlines) = map Span.x spans
  /\ map Span.y (mark_underlines spans underlines) = map Span.y spans.
Proof.
  unfold mark_underlines. split; [|split; [|split]].
  - induction spans as [|span spans IH]; constructor; [|exact IH].
    apply mark_span_fields.
  - rewrite map_map. apply map_ext. intros span. apply mark_span_idempotent.
  - rewrite map_map. apply map_ext. intros span.
    apply (mark_span_fields span underlines).
  - rewrite map_map. apply map_ext. intros span.
    apply (mark_span_fields span underlines).
Qed.

(** ** Size and range of the centers *)

Lemma length_insert_sorted p l : length (insert_sorted p l) = S (length l).
Proof.
  induction l as [|q l IH]; [reflexivity|]. cbn [insert_sorted].
  destruct (Qle_bool p q); cbn [length]; [reflexivity|now rewrite IH].
Qed.

Lemma length_sorted l : length (sorted l) = length l.
Proof.
  induction l as [|p l IH]; [reflexivity|].
  cbn [sorted fold_right]. fold (sorted l).
  now rewrite length_insert_sorted, IH.
Qed.

Lemma length_set_le l : (length (set l) <= length l)%nat.
Proof.
  induction l as [|p l IH]; [reflexivity|]. cbn [set length].
  pose proof (filter_length_le (fun q => negb (Qeq_bool p q)) (set l)). lia.
Qed.

Lemma length_chain_le tolerance rest :
  forall prev, (length (chain tolerance prev rest) <= S (length rest))%nat.
Proof.
  induction rest as [|pos rest IH]; intros prev; cbn [chain length]; [lia|].
  specialize (IH pos).
  destruct (chain_head tolerance pos rest) as [c [others Hc]].
  rewrite Hc in *.
  destruct (Qle_bool (pos - prev) tolerance); cbn [length] in *; lia.
Qed.

Lemma concat_member_strict clusters :
  StronglySorted Qlt (concat clusters) ->
  Forall (StronglySorted Qlt) clusters.
Proof.
  induction clusters as [|c clusters IH]; intros Hs; constructor.
  - cbn [concat] in Hs. now apply strict_app in Hs.
  - apply IH. cbn [concat] in Hs. now apply strict_app in Hs.
Qed.

(** X7: [cluster_positions] returns no center exactly for the empty list,
    never more centers than there are positions, and every center lies
    between two of the given positions. *)
Theorem cluster_positions_within_input (positions : list Q) (tolerance : Q) :
  (cluster_positions positions tolerance = [] <-> positions = [])
  /\ (length (cluster_positions positions tolerance) <= length positions)%nat
  /\ (forall center,
         In center (cluster_positions positions tolerance) ->
         exists low high,
           In low positions /\ In high positions
           /\ low <= center <= high).
Proof.
  split; [|split].
  - split; [|now intros ->].
    intros Hnil. destruct positions as [|p positions]; [reflexivity|].
    exfalso. revert Hnil. now apply cluster_positions_nonempty.
  - rewrite cluster_positions_chain, length_map.
    pose proof (length_set_le positions) as Hset.
    rewrite <- (length_sorted (set positions)) in Hset.
    destruct (sorted (set positions)) as [|first rest]; cbn [chain_all].
    + cbn [length]. lia.
    + pose proof (length_chain_le tolerance rest first). cbn [length] in Hset.
      lia.
  - intros center Hin. rewrite cluster_positions_chain in Hin.
    apply in_map_iff in Hin. destruct Hin as [cluster [<- Hcluster]].
    destruct (chain_all_chaining tolerance (sorted (set positions)))
      as [Hcat [Hne _]].
    pose proof (sorted_set_strict positions) as Hstrict.
    rewrite <- Hcat in Hstrict. apply concat_member_strict in Hstrict.
    rewrite Forall_forall in Hne, Hstrict.
    specialize (Hne cluster Hcluster). specialize (Hstrict cluster Hcluster).
    assert (Hsub : forall q, In q cluster -> In q positions).
    { intros q Hq. apply sorted_set_members. rewrite <- Hcat.
      apply in_concat. now exists cluster. }
    exists (hd 0 cluster), (last cluster 0).
    split; [now apply Hsub, hd_In|]. split; [now apply Hsub, last_In|].
    split.
    + apply mean_ge; [exact Hne|now apply strict_hd_le].
    + apply mean_le; [exact Hne|now apply strict_le_last].
Qed.

(** ** Extreme tolerances *)

Lemma chain_close tolerance rest :
  forall prev,
    Sorted (close tolerance) (prev :: rest) ->
    chain tolerance prev rest = [prev :: rest].
Proof.
  induction rest as [|pos rest IH]; intros prev Hs; cbn [chain];
    [reflexivity|].
  inversion_clear Hs as [|? ? Hs' Hhd]. inversion_clear Hhd as [|? ? Hnear].
  unfold close in Hnear. apply Qle_bool_iff in Hnear.
  now rewrite Hnear, IH.
Qed.

Lemma pairwise_Sorted {A} (R : A -> A -> Prop) l :
  (forall a b, In a l -> In b l -> R a b) -> Sorted R l.
Proof.
  induction l as [|a l IH]; intros H; constructor.
  - apply IH. intros u v Hu Hv. apply H; now right.
  - destruct l as [|b l]; constructor. apply H; [now left|right; now left].
Qed.

Lemma map_mean_singletons l : map mean (map (fun c => [c]) l) = l.
Proof.
  induction l as [|c l IH]; [reflexivity|].
  cbn [map]. now rewrite mean_singleton, IH.
Qed.

(** X8: with a tolerance that is not positive nothing is merged, and the
    centers are the distinct positions in ascending order; when any two
    positions differ by at most the tolerance there is one center, the mean
    of the distinct positions. *)
Theorem cluster_positions_extremes (positions : list Q) (tolerance : Q) :
  (tolerance <= 0 ->
   cluster_positions positions tolerance = sorted (set positions))
  /\ (positions <> [] ->
      (forall p q, In p positions -> In q positions -> q - p <= tolerance) ->
      cluster_positions positions tolerance
      = [sum (sorted (set positions)) / len (sorted (set positions))]).
Proof.
  pose proof (sorted_set_strict positions) as Hstrict.
  split.
  - intros Htol. rewrite cluster_positions_chain.
    destruct (sorted (set positions)) as [|first rest] eqn:E; [reflexivity|].
    cbn [chain_all]. rewrite chain_apart; [apply map_mean_singletons|].
    apply StronglySorted_Sorted in Hstrict.
    eapply Sorted_weaken; [|exact Hstrict].
    intros a b Hab. unfold apart. lra.
  - intros Hne Hclose. rewrite cluster_positions_chain.
    destruct (sorted (set positions)) as [|first rest] eqn:E.
    + exfalso. apply (cluster_positions_nonempty positions tolerance Hne).
      rewrite cluster_positions_chain, E. reflexivity.
    + cbn [chain_all]. rewrite chain_close; [reflexivity|].
      apply pairwise_Sorted. intros a b Ha Hb. unfold close.
      apply Hclose; apply sorted_set_members; now rewrite E.
Qed.

Lemma cluster_positions_extremes_witness :
  let positions : list Q := [12; 10; 12; 14] in
  ((-1 <= 0) /\ cluster_positions positions (-1) = sorted (set positions))
  /\ (positions <> []
      /\ (forall p q, In p positions -> In q positions -> q - p <= 5)
      /\ cluster_positions positions 5
         = [sum (sorted (set positions)) / len (sorted (set positions))]).
Proof.
  intros positions.
  assert (Htol : -1 <= 0) by lra.
  assert (Hne : positions <> []) by discriminate.
  assert (Hclose : forall p q,
             In p positions -> In q positions -> q - p <= 5).
  { intros p q Hp Hq. cbn in Hp, Hq.
    repeat (destruct Hp as [<-|Hp]); try contradiction;
      repeat (destruct Hq as [<-|Hq]); try contradiction; lra. }
  split.
  - split; [exact Htol|].
    exact (proj1 (cluster_positions_extremes positions (-1)) Htol).
  - split; [exact Hne|]. split; [exact Hclose|].
    exact (proj2 (cluster_positions_extremes positions 5) Hne Hclose).
Defined.

(** ** What assign_to_cluster returns *)

Lemma assign_loop_earlier value tolerance clusters :
  forall i j,
    assign_loop value clusters tolerance i = Some j ->
    forall k c,
      (k < j - i)%nat -> nth_error clusters k = Some c ->
      ~ Qabs (value - c) <= tolerance.
Proof.
  induction clusters as [|c0 clusters IH]; intros i j;
    cbn [assign_loop]; [discriminate|].
  destruct (Qle_bool (Qabs (value - c0)) tolerance) eqn:E.
  - intros H. inversion H. subst j. intros k c Hk. lia.
  - intros H k c Hk Hnth. destruct k as [|k].
    + cbn in Hnth. inversion Hnth. subst c.
      intros Hc. apply Qle_bool_iff in Hc. congruence.
    + pose proof (assign_loop_bound _ _ _ _ _ H) as Hb.
      apply (IH _ _ H k c); [lia|exact Hnth].
Qed.

(** X9: [assign_to_cluster] returns the index of the first center that is
    within the tolerance of the value, no earlier center being within it;
    when no center at all is within the tolerance, or the list is empty, it
    returns 0. *)
Theorem assign_to_cluster_first_within
    (value : Q) (clusters : list Q) (tolerance : Q) :
  let i := assign_to_cluster value clusters tolerance in
  (exists center,
      nth_error clusters i = Some center
      /\ Qabs (value - center) <= tolerance
      /\ forall j earlier,
          (j < i)%nat -> nth_error clusters j = Some earlier ->
          ~ Qabs (value - earlier) <= tolerance)
  \/ (i = 0%nat
      /\ forall center,
          In center clusters -> ~ Qabs (value - center) <= tolerance).
Proof.
  unfold assign_to_cluster.
  destruct (assign_loop value clusters tolerance 0) as [j|] eqn:E; cbn zeta.
  - left. destruct (assign_loop_within _ _ _ _ _ E) as [center [Hn Hc]].
    rewrite Nat.sub_0_r in Hn. exists center.
    split; [exact Hn|]. split; [exact Hc|].
    intros k earlier Hk. apply (assign_loop_earlier _ _ _ _ _ E). lia.
  - right. split; [reflexivity|].
    apply assign_loop_none in E. now rewrite Forall_forall in E.
Qed.

(** ** A value is within the tolerance of its own center only *)

Lemma Qabs_gt_l value center tolerance :
  center + tolerance < value -> ~ Qabs (value - center) <= tolerance.
Proof. intros H Habs. apply Qabs_Qle_condition in Habs. lra. Qed.

Lemma Qabs_gt_r value center tolerance :
  value + tolerance < center -> ~ Qabs (value - center) <= tolerance.
Proof. intros H Habs. apply Qabs_Qle_condition in Habs. lra. Qed.

Lemma hd_app_nonempty {A} (l l' : list A) d : l <> [] -> hd d (l ++ l') = hd d l.
Proof. destruct l; [congruence|reflexivity]. Qed.

(** The values of later clusters are more than the tolerance above the last
    value of a cluster. *)
Lemma later_values_above tolerance c clusters :
  Forall (fun cluster => cluster <> []) (c :: clusters) ->
  Sorted (split_at tolerance) (c :: clusters) ->
  StronglySorted Qlt (concat (c :: clusters)) ->
  forall cj v, In cj clusters -> In v cj -> last c 0 + tolerance < v.
Proof.
  intros Hne Hsplit Hstrict cj v Hcj Hv.
  destruct clusters as [|n rest]; [contradiction|].
  inversion_clear Hne as [|? ? _ Hne']. inversion_clear Hne' as [|? ? Hn _].
  inversion_clear Hsplit as [|? ? _ Hhd]. inversion_clear Hhd as [|? ? Hgap].
  unfold split_at in Hgap.
  cbn [concat] in Hstrict. apply strict_app in Hstrict.
  destruct Hstrict as [_ [Hlater _]].
  pose proof (strict_hd_le _ Hlater) as Hhd.
  change (n ++ concat rest) with (concat (n :: rest)) in Hhd.
  rewrite Forall_forall in Hhd.
  assert (Hle : hd 0 (concat (n :: rest)) <= v)
    by (apply Hhd, in_concat; now exists cj).
  cbn [concat] in Hle. rewrite hd_app_nonempty in Hle by exact Hn. lra.
Qed.

(** The first value of a later cluster is more than the tolerance above the
    values of a cluster. *)
Lemma later_heads_above tolerance clusters :
  forall c,
    Forall (fun cluster => cluster <> []) (c :: clusters) ->
    Sorted (split_at tolerance) (c :: clusters) ->
    StronglySorted Qlt (concat (c :: clusters)) ->
    forall cj u, In cj clusters -> In u c -> u + tolerance < hd 0 cj.
Proof.
  induction clusters as [|n rest IH]; intros c Hne Hsplit Hstrict cj u Hcj Hu;
    [contradiction|].
  inversion Hne as [|? ? Hc Hne']. subst.
  inversion Hne' as [|? ? Hn _]. subst.
  inversion Hsplit as [|? ? Hsplit' Hhd]. subst.
  inversion_clear Hhd as [|? ? Hgap]. unfold split_at in Hgap.
  cbn [concat] in Hstrict. apply strict_app in Hstrict.
  destruct Hstrict as [Hsc [Hlater Hcross]].
  destruct Hcj as [<-|Hcj].
  - pose proof (strict_le_last _ Hsc) as Hlast.
    rewrite Forall_forall in Hlast. specialize (Hlast u Hu). lra.
  - assert (Hun : u < hd 0 n).
    { apply Hcross; [exact Hu|]. apply in_or_app. left. now apply hd_In. }
    assert (Hstep : hd 0 n + tolerance < hd 0 cj).
    { apply (IH n Hne' Hsplit' Hlater cj (hd 0 n) Hcj). now apply hd_In. }
    lra.
Qed.

Lemma own_center_only tolerance before :
  forall c after,
    Forall (fun cluster => cluster <> []) (before ++ c :: after) ->
    Sorted (split_at tolerance) (before ++ c :: after) ->
    StronglySorted Qlt (concat (before ++ c :: after)) ->
    forall q,
      In q c ->
      Forall (fun cluster => ~ Qabs (q - mean cluster) <= tolerance) before
      /\ Forall (fun cluster => ~ Qabs (q - mean cluster) <= tolerance) after.
Proof.
  induction before as [|b before IH]; intros c after Hne Hsplit Hstrict q Hq.
  - split; [constructor|]. cbn [app] in *.
    apply Forall_forall. intros cj Hcj.
    assert (Hcjne : cj <> []).
    { rewrite Forall_forall in Hne. apply Hne. now right. }
    assert (Hcjs : StronglySorted Qlt cj).
    { apply concat_member_strict in Hstrict.
      rewrite Forall_forall in Hstrict. apply Hstrict. now right. }
    pose proof (later_heads_above tolerance after c Hne Hsplit Hstrict
                  cj q Hcj Hq) as Habove.
    pose proof (mean_ge (hd 0 cj) cj Hcjne (strict_hd_le cj Hcjs)) as Hmean.
    apply Qabs_gt_r. lra.
  - cbn [app] in *.
    assert (Hb : mean b + tolerance < q).
    { pose proof (later_values_above tolerance b (before ++ c :: after)
                    Hne Hsplit Hstrict c q) as Habove.
      assert (Hlast : last b 0 + tolerance < q)
        by (apply Habove; [apply in_elt|exact Hq]).
      inversion_clear Hne as [|? ? Hbne _].
      cbn [concat] in Hstrict. apply strict_app in Hstrict.
      destruct Hstrict as [Hsb _].
      pose proof (mean_le (last b 0) b Hbne (strict_le_last b Hsb)). lra. }
    inversion_clear Hne as [|? ? _ Hne'].
    inversion_clear Hsplit as [|? ? Hsplit' _].
    cbn [concat] in Hstrict. apply strict_app in Hstrict.
    destruct Hstrict as [_ [Hstrict' _]].
    destruct (IH c after Hne' Hsplit' Hstrict' q Hq) as [Hbefore Hafter].
    split; [|exact Hafter].
    constructor; [now apply Qabs_gt_l|exact Hbefore].
Qed.

Lemma assign_loop_skip value tolerance skipped :
  Forall (fun center => ~ Qabs (value - center) <= tolerance) skipped ->
  forall rest i,
    assign_loop value (skipped ++ rest) tolerance i
    = assign_loop value rest tolerance (i + length skipped).
Proof.
  induction 1 as [|c skipped Hc Hs IH]; intros rest i; cbn [app length].
  - now rewrite Nat.add_0_r.
  - cbn [assign_loop].
    destruct (Qle_bool (Qabs (value - c)) tolerance) eqn:E.
    + apply Qle_bool_iff in E. contradiction.
    + rewrite IH. f_equal. lia.
Qed.

Lemma within_Qeq p q center tolerance :
  q == p ->
  (Qabs (p - center) <= tolerance <-> Qabs (q - center) <= tolerance).
Proof. intros H. now rewrite H. Qed.

Lemma chain_all_facts positions tolerance :
  let clusters := chain_all tolerance (sorted (set positions)) in
  Forall (fun cluster => cluster <> []) clusters
  /\ Forall (Sorted (close tolerance)) clusters
  /\ Sorted (split_at tolerance) clusters
  /\ StronglySorted Qlt (concat clusters).
Proof.
  destruct (chain_all_chaining tolerance (sorted (set positions)))
    as [Hcat [Hne [Hclose Hsplit]]].
  repeat split; try assumption.
  rewrite Hcat. apply sorted_set_strict.
Qed.

(** For a member of a cluster, the loop of [assign_to_cluster] stops at the
    center of that cluster or nowhere. *)
Lemma assign_loop_own positions tolerance before cluster after p q :
  chain_all tolerance (sorted (set positions)) = before ++ cluster :: after ->
  In q cluster -> q == p ->
  assign_loop p (cluster_positions positions tolerance) tolerance 0
  = if Qle_bool (Qabs (p - mean cluster)) tolerance
    then Some (length before) else None.
Proof.
  intros Hsplit Hq Hqp.
  destruct (chain_all_facts positions tolerance) as [Hne [_ [Hsp Hstrict]]].
  rewrite Hsplit in Hne, Hsp, Hstrict.
  destruct (own_center_only tolerance before cluster after Hne Hsp Hstrict
              q Hq) as [Hbefore Hafter].
  assert (Hconv : forall l,
             Forall (fun c => ~ Qabs (q - mean c) <= tolerance) l ->
             Forall (fun m => ~ Qabs (p - m) <= tolerance) (map mean l)).
  { intros l Hl. apply Forall_map. eapply Forall_impl; [|exact Hl].
    intros c Hc Hp. apply Hc. now apply (within_Qeq p q). }
  rewrite cluster_positions_chain, Hsplit, map_app.
  rewrite assign_loop_skip by now apply Hconv.
  cbn [map assign_loop]. rewrite length_map. cbn [Nat.add].
  destruct (Qle_bool (Qabs (p - mean cluster)) tolerance); [reflexivity|].
  apply assign_loop_none. now apply Hconv.
Qed.

Lemma position_cluster positions tolerance p :
  In p positions ->
  exists before cluster after q,
    chain_all tolerance (sorted (set positions)) = before ++ cluster :: after
    /\ In q cluster /\ q == p.
Proof.
  intros Hp.
  destruct (proj2 (sorted_set_members positions) p Hp) as [q [Hq Hqp]].
  destruct (chain_all_chaining tolerance (sorted (set positions)))
    as [Hcat _].
  rewrite <- Hcat in Hq. apply in_concat in Hq.
  destruct Hq as [cluster [Hcluster Hq]].
  apply in_split in Hcluster. destruct Hcluster as [before [after Hsplit]].
  now exists before, cluster, after, q.
Qed.

(** X10: for a value taken from the clustered positions, the loop of
    [assign_to_cluster] over the centers can stop only at the center of the
    cluster that holds the value: it returns that cluster's index when the
    value is within the tolerance of that center, and otherwise finds no
    center at all, so that [assign_to_cluster] returns 0. *)
Theorem assign_to_cluster_own_or_fallback
    (positions : list Q) (tolerance : Q) (p : Q) (Hp : In p positions) :
  exists before cluster after q,
    chain_all tolerance (sorted (set positions)) = before ++ cluster :: after
    /\ In q cluster /\ q == p
    /\ nth_error (cluster_positions positions tolerance) (length before)
       = Some (sum cluster / len cluster)
    /\ (Qabs (p - sum cluster / len cluster) <= tolerance ->
        assign_loop p (cluster_positions positions tolerance) tolerance 0
        = Some (length before)
        /\ assign_to_cluster p (cluster_positions positions tolerance)
                             tolerance = length before)
    /\ (~ Qabs (p - sum cluster / len cluster) <= tolerance ->
        assign_loop p (cluster_positions positions tolerance) tolerance 0
        = None
        /\ assign_to_cluster p (cluster_positions positions tolerance)
                             tolerance = 0%nat).
Proof.
  destruct (position_cluster positions tolerance p Hp)
    as [before [cluster [after [q [Hsplit [Hq Hqp]]]]]].
  exists before, cluster, after, q.
  split; [exact Hsplit|]. split; [exact Hq|]. split; [exact Hqp|].
  pose proof (assign_loop_own positions tolerance before cluster after p q
                Hsplit Hq Hqp) as Hloop.
  fold (mean cluster). split; [|split].
  - rewrite cluster_positions_chain, Hsplit, map_app.
    rewrite nth_error_app2 by (rewrite length_map; lia).
    now rewrite length_map, Nat.sub_diag.
  - intros Hin. apply Qle_bool_iff in Hin. rewrite Hin in Hloop.
    unfold assign_to_cluster. now rewrite Hloop.
  - intros Hout. unfold assign_to_cluster.
    destruct (Qle_bool (Qabs (p - mean cluster)) tolerance) eqn:E.
    + apply Qle_bool_iff in E. contradiction.
    + now rewrite Hloop.
Qed.

Lemma assign_to_cluster_own_or_fallback_witness :
  let positions : list Q := [0; 100; 105; 110; 115] in
  In 105 positions
  /\ exists before cluster after q,
      chain_all 5 (sorted (set positions)) = before ++ cluster :: after
      /\ In q cluster /\ q == 105.
Proof.
  intros positions.
  assert (Hp : In 105 positions) by (cbn; tauto).
  split; [exact Hp|].
  destruct (assign_to_cluster_own_or_fallback positions 5 105 Hp)
    as [before [cluster [after [q [Hsplit [Hq [Hqp _]]]]]]].
  now exists before, cluster, after, q.
Defined.

Lemma spread_within tolerance cluster q :
  cluster <> [] -> StronglySorted Qlt cluster -> In q cluster ->
  last cluster 0 - hd 0 cluster <= tolerance ->
  Qabs (q - mean cluster) <= tolerance.
Proof.
  intros Hne Hs Hq Hspread.
  pose proof (strict_hd_le cluster Hs) as Hhd.
  pose proof (strict_le_last cluster Hs) as Hlast.
  pose proof (mean_ge _ _ Hne Hhd) as Hm1.
  pose proof (mean_le _ _ Hne Hlast) as Hm2.
  rewrite Forall_forall in Hhd, Hlast.
  specialize (Hhd q Hq). specialize (Hlast q Hq).
  apply Qabs_Qle_condition. lra.
Qed.

(** X11: when the cluster that holds a position is no wider than the
    tolerance (its largest value minus its smallest), [assign_to_cluster]
    returns the index of that cluster for the position; in particular, when
    every cluster is that narrow the fallback is never reached for a
    position of the clustered list. *)
Theorem assign_to_cluster_narrow_cluster
    (positions : list Q) (tolerance : Q) (p : Q)
    (before : list (list Q)) (cluster : list Q) (after : list (list Q))
    (Hsplit : chain_all tolerance (sorted (set positions))
              = before ++ cluster :: after)
    (Hmember : exists q, In q cluster /\ q == p)
    (Hnarrow : last cluster 0 - hd 0 cluster <= tolerance) :
  assign_loop p (cluster_positions positions tolerance) tolerance 0
  = Some (length before)
  /\ assign_to_cluster p (cluster_positions positions tolerance) tolerance
     = length before
  /\ Qabs (p - sum cluster / len cluster) <= tolerance.
Proof.
  destruct Hmember as [q [Hq Hqp]].
  destruct (chain_all_facts positions tolerance) as [Hne [_ [_ Hstrict]]].
  rewrite Hsplit in Hne, Hstrict.
  apply concat_member_strict in Hstrict.
  rewrite Forall_forall in Hne, Hstrict.
  assert (Hin : In cluster (before ++ cluster :: after)) by apply in_elt.
  assert (Hwithin : Qabs (p - mean cluster) <= tolerance).
  { apply (within_Qeq p q); [exact Hqp|].
    apply spread_within; auto. }
  pose proof (assign_loop_own positions tolerance before cluster after p q
                Hsplit Hq Hqp) as Hloop.
  pose proof Hwithin as Hb. apply Qle_bool_iff in Hb. rewrite Hb in Hloop.
  unfold assign_to_cluster. rewrite Hloop. now repeat split.
Qed.

Lemma assign_to_cluster_narrow_cluster_witness :
  let positions : list Q := [50; 0; 52; 100] in
  chain_all 5 (sorted (set positions)) = [[0]] ++ [50; 52] :: [[100]]
  /\ (exists q, In q [50; 52] /\ q == 52)
  /\ last [50; 52] 0 - hd 0 [50; 52] <= 5
  /\ assign_to_cluster 52 (cluster_positions positions 5) 5 = 1%nat.
Proof.
  intros positions.
  assert (Hsplit : chain_all 5 (sorted (set positions))
                   = [[0]] ++ [50; 52] :: [[100]]) by reflexivity.
  assert (Hmember : exists q, In q [50; 52] /\ q == 52).
  { exists 52. split; [cbn; tauto|reflexivity]. }
  assert (Hnarrow : last [50; 52] 0 - hd 0 [50; 52] <= 5)
    by (cbn; lra).
  split; [exact Hsplit|]. split; [exact Hmember|]. split; [exact Hnarrow|].
  exact (proj1 (proj2 (assign_to_cluster_narrow_cluster
                         positions 5 52 [[0]] [50; 52] [[100]]
                         Hsplit Hmember Hnarrow))).
Defined.

(** ** Every center keeps one of its positions *)

Lemma member_near tolerance m cluster :
  0 <= tolerance ->
  forall first,
    Sorted (close tolerance) (first :: cluster) ->
    first <= m <= last (first :: cluster) 0 ->
    exists q, In q (first :: cluster) /\ Qabs (q - m) <= tolerance.
Proof.
  intros Htol.
  induction cluster as [|next cluster IH]; intros first Hs Hm.
  - exists first. split; [now left|].
    cbn [last] in Hm. apply Qabs_Qle_condition. lra.
  - inversion_clear Hs as [|? ? Hs' Hhd]. inversion_clear Hhd as [|? ? Hnear].
    unfold close in Hnear.
    destruct (Qlt_le_dec next m) as [Hlt|Hle].
    + destruct (IH next Hs') as [q [Hq Hqm]].
      * change (last (first :: next :: cluster) 0)
          with (last (next :: cluster) 0) in Hm. lra.
      * exists q. split; [now right|exact Hqm].
    + exists first. split; [now left|].
      apply Qabs_Qle_condition. lra.
Qed.

Lemma center_claims_member positions tolerance i cluster :
  0 <= tolerance ->
  nth_error (chain_all tolerance (sorted (set positions))) i = Some cluster ->
  exists q,
    In q positions /\ In q cluster
    /\ assign_to_cluster q (cluster_positions positions tolerance) tolerance
       = i.
Proof.
  intros Htol Hnth.
  apply nth_error_split in Hnth.
  destruct Hnth as [before [after [Hsplit Hlen]]].
  destruct (chain_all_facts positions tolerance)
    as [Hne [Hclose [_ Hstrict]]].
  rewrite Hsplit in Hne, Hclose, Hstrict.
  apply concat_member_strict in Hstrict.
  rewrite Forall_forall in Hne, Hclose, Hstrict.
  assert (Hin : In cluster (before ++ cluster :: after)) by apply in_elt.
  specialize (Hne _ Hin). specialize (Hclose _ Hin).
  specialize (Hstrict _ Hin).
  destruct cluster as [|first cluster]; [congruence|].
  destruct (member_near tolerance (mean (first :: cluster)) cluster Htol
              first Hclose) as [q [Hq Hqm]].
  { split.
    - apply (mean_ge first (first :: cluster) Hne).
      exact (strict_hd_le _ Hstrict).
    - apply (mean_le _ (first :: cluster) Hne).
      now apply strict_le_last. }
  exists q. split; [|split; [exact Hq|]].
  - apply sorted_set_members.
    destruct (chain_all_chaining tolerance (sorted (set positions)))
      as [Hcat _].
    rewrite <- Hcat, Hsplit. apply in_concat.
    exists (first :: cluster). split; [apply in_elt|exact Hq].
  - pose proof (assign_loop_own positions tolerance before
                  (first :: cluster) after q q Hsplit Hq (Qeq_refl q))
      as Hloop.
    apply Qle_bool_iff in Hqm. rewrite Hqm in Hloop.
    unfold assign_to_cluster. now rewrite Hloop, Hlen.
Qed.

Lemma insert_by_x_In s cell t : In t (insert_by_x s cell) <-> t = s \/ In t cell.
Proof.
  induction cell as [|s' cell IH]; cbn [insert_by_x In]; [intuition|].
  destruct (Qle_bool (Span.x s) (Span.x s')); cbn [In]; [intuition|].
  rewrite IH. intuition.
Qed.

Lemma sort_by_x_In cell t : In t (sort_by_x cell) <-> In t cell.
Proof.
  induction cell as [|s cell IH]; [reflexivity|].
  cbn [sort_by_x fold_right]. fold (sort_by_x cell).
  rewrite insert_by_x_In, IH. cbn [In]. intuition.
Qed.

Lemma row_with_span (row : list Cell) c :
  nth c row [] <> [] -> forallb is_empty row = false.
Proof.
  revert c. induction row as [|cell row IH]; intros c Hc.
  - destruct c; now contradiction Hc.
  - destruct c as [|c]; cbn [nth forallb] in *.
    + destruct cell; [congruence|reflexivity].
    + rewrite (IH c Hc). apply andb_false_r.
Qed.

Lemma all_rows_emitted columns (grid : Grid) :
  Forall (fun row => forallb is_empty row = false) grid ->
  flat_map (row_lines columns) grid = flat_map (grid_block columns) grid.
Proof.
  induction 1 as [|row grid Hrow Hgrid IH]; [reflexivity|].
  cbn [flat_map]. unfold row_lines at 1. now rewrite Hrow, IH.
Qed.

(** X12: on a page with at least one span no row of the grid is empty: for
    every y-cluster some span is assigned to its row, so the test that skips
    rows without content never succeeds and the page gets exactly one grid
    block per y-cluster, each listing every column. *)
Theorem every_row_emitted
    (page : Page.t) (Hspans : extract_all_spans page <> []) :
  let spans := page_spans page in
  let x_clusters := cluster_positions (map Span.x spans) 5 in
  let y_clusters := cluster_positions (map Span.y spans) 3 in
  (forall r,
      (r < length y_clusters)%nat ->
      exists span, In span spans /\ row_of y_clusters span = r)
  /\ exists grid : Grid,
      grid_shape (length y_clusters) (length x_clusters) grid
      /\ Forall (fun row => forallb is_empty row = false) grid
      /\ forall lines page_idx,
          process_page lines page_idx page
          = Some (lines ++ page_break page_idx
                        ++ flat_map (grid_block (length x_clusters)) grid
                        ++ [[]]).
Proof.
  intros spans x_clusters y_clusters.
  assert (Hrows : forall r,
             (r < length y_clusters)%nat ->
             exists span, In span spans /\ row_of y_clusters span = r).
  { intros r Hr. subst y_clusters.
    rewrite cluster_positions_chain, length_map in Hr.
    destruct (nth_error (chain_all 3 (sorted (set (map Span.y spans)))) r)
      as [cluster|] eqn:E; [|apply nth_error_None in E; lia].
    destruct (center_claims_member (map Span.y spans) 3 r cluster)
      as [q [Hq [_ Hassign]]]; [lra|exact E|].
    apply in_map_iff in Hq. destruct Hq as [span [<- Hspan]].
    now exists span. }
  split; [exact Hrows|].
  assert (Hne : page_spans page <> []) by now rewrite page_spans_nil.
  destruct (process_page_grid page Hne)
    as [grid [Hshape [Hcells [_ Hlines]]]].
  fold spans in Hshape, Hcells, Hlines.
  fold x_clusters in Hshape, Hcells, Hlines.
  fold y_clusters in Hshape, Hcells.
  assert (Hfilled : Forall (fun row => forallb is_empty row = false) grid).
  { apply Forall_forall. intros row Hrow.
    destruct (In_nth grid row [] Hrow) as [r [Hr <-]].
    destruct Hshape as [Hlen _]. rewrite Hlen in Hr.
    destruct (Hrows r Hr) as [span [Hspan Hrow_of]].
    apply (row_with_span _ (col_of x_clusters span)).
    fold (cell_at grid r (col_of x_clusters span)). rewrite Hcells.
    intros Hnil.
    assert (Hin : In span
                     (sort_by_x
                        (filter (fun s =>
                                   (r =? row_of y_clusters s)%nat
                                   && (col_of x_clusters span
                                       =? col_of x_clusters s)%nat)
                                spans))).
    { apply sort_by_x_In, filter_In. split; [exact Hspan|].
      now rewrite Hrow_of, !Nat.eqb_refl. }
    rewrite Hnil in Hin. contradiction. }
  exists grid. split; [exact Hshape|]. split; [exact Hfilled|].
  intros lines page_idx. rewrite Hlines.
  now rewrite all_rows_emitted.
Qed.

Lemma every_row_emitted_witness :
  extract_all_spans drifting_page <> []
  /\ forall r,
      (r < length (cluster_positions
                     (map Span.y (page_spans drifting_page)) 3))%nat ->
      exists span,
        In span (page_spans drifting_page)
        /\ row_of (cluster_positions
                     (map Span.y (page_spans drifting_page)) 3) span = r.
Proof.
  assert (Hspans : extract_all_spans drifting_page <> [])
    by (vm_compute; discriminate).
  split; [exact Hspans|].
  exact (proj1 (every_row_emitted drifting_page Hspans)).
Defined.

(** ** The grid holds every span once, each cell from left to right *)

Lemma insert_by_x_perm s cell : Permutation (insert_by_x s cell) (s :: cell).
Proof.
  induction cell as [|s' cell IH]; cbn [insert_by_x]; [reflexivity|].
  destruct (Qle_bool (Span.x s) (Span.x s')); [reflexivity|].
  rewrite IH. apply perm_swap.
Qed.

Lemma sort_by_x_perm cell : Permutation (sort_by_x cell) cell.
Proof.
  induction cell as [|s cell IH]; [reflexivity|].
  cbn [sort_by_x fold_right]. fold (sort_by_x cell).
  now rewrite insert_by_x_perm, IH.
Qed.

Lemma insert_by_x_sorted s cell :
  Sorted (fun a b => Span.x a <= Span.x b) cell ->
  Sorted (fun a b => Span.x a <= Span.x b) (insert_by_x s cell).
Proof.
  induction 1 as [|s' cell Hs IH Hhd]; cbn [insert_by_x].
  - repeat constructor.
  - destruct (Qle_bool (Span.x s) (Span.x s')) eqn:E.
    + apply Qle_bool_iff in E. repeat constructor; assumption.
    + assert (Hlt : Span.x s' <= Span.x s).
      { apply Qlt_le_weak, Qnot_le_lt. intros H.
        apply Qle_bool_iff in H. congruence. }
      constructor; [exact IH|].
      destruct cell as [|s'' cell]; cbn [insert_by_x].
      * now constructor.
      * inversion_clear Hhd as [|? ? Hrel].
        destruct (Qle_bool (Span.x s) (Span.x s'')); now constructor.
Qed.

Lemma sort_by_x_sorted cell :
  Sorted (fun a b => Span.x a <= Span.x b) (sort_by_x cell).
Proof.
  induction cell as [|s cell IH]; [constructor|].
  cbn [sort_by_x fold_right]. fold (sort_by_x cell).
  now apply insert_by_x_sorted.
Qed.

Lemma list_set_perm {A} (l : list (list A)) :
  forall i old v s,
    nth_error l i = Some old -> Permutation v (s :: old) ->
    Permutation (concat (list_set l i v)) (s :: concat l).
Proof.
  induction l as [|a l IH]; intros i old v s Hnth Hv.
  - destruct i; discriminate.
  - destruct i as [|i]; cbn [list_set concat] in *.
    + inversion Hnth. subst a. now rewrite Hv.
    + rewrite (IH i old v s Hnth Hv). symmetry. apply Permutation_middle.
Qed.

Lemma grid_set_perm (grid : Grid) :
  forall r old row s,
    nth_error grid r = Some old ->
    Permutation (concat row) (s :: concat old) ->
    Permutation (concat (concat (list_set grid r row)))
                (s :: concat (concat grid)).
Proof.
  induction grid as [|a grid IH]; intros r old row s Hnth Hrow.
  - destruct r; discriminate.
  - destruct r as [|r]; cbn [list_set concat] in *; rewrite !concat_app.
    + inversion Hnth. subst a. now rewrite Hrow.
    + rewrite (IH r old row s Hnth Hrow). symmetry. apply Permutation_middle.
Qed.

Lemma grid_append_perm grid r c span grid' :
  grid_append grid r c span = Some grid' ->
  Permutation (concat (concat grid')) (span :: concat (concat grid)).
Proof.
  unfold grid_append.
  destruct (nth_error grid r) as [row|] eqn:Er; [|discriminate].
  destruct (nth_error row c) as [cell|] eqn:Ec; [|discriminate].
  intros H. inversion H. subst grid'.
  apply (grid_set_perm grid r row); [exact Er|].
  apply (list_set_perm row c cell); [exact Ec|].
  symmetry. apply Permutation_cons_append.
Qed.

Lemma assign_spans_perm x_clusters y_clusters spans :
  forall grid grid',
    assign_spans spans x_clusters y_clusters grid = Some grid' ->
    Permutation (concat (concat grid')) (concat (concat grid) ++ spans).
Proof.
  induction spans as [|span spans IH]; intros grid grid'; cbn [assign_spans].
  - intros H. inversion H. now rewrite app_nil_r.
  - destruct (grid_append grid _ _ span) as [grid1|] eqn:E; [|discriminate].
    intros H. rewrite (IH grid1 grid' H).
    rewrite (grid_append_perm _ _ _ _ _ E).
    cbn [app]. apply Permutation_middle.
Qed.

Lemma empty_grid_concat (x_clusters y_clusters : list Q) :
  concat (concat (map (fun _ => map (fun _ => @nil Span.t) x_clusters)
                      y_clusters)) = [].
Proof.
  induction y_clusters as [|y y_clusters IH]; [reflexivity|].
  cbn [map concat]. rewrite concat_app, IH, app_nil_r.
  clear. induction x_clusters as [|x x_clusters IHx]; [reflexivity|exact IHx].
Qed.

Lemma sorted_grid_perm (grid : Grid) :
  Permutation (concat (concat (map (map sort_by_x) grid)))
              (concat (concat grid)).
Proof.
  induction grid as [|row grid IH]; [reflexivity|].
  cbn [map concat]. rewrite !concat_app, IH.
  apply Permutation_app_tail.
  induction row as [|cell row IHrow]; [reflexivity|].
  cbn [map concat]. now rewrite sort_by_x_perm, IHrow.
Qed.

Lemma process_page_sorted_grid page :
  page_spans page <> [] ->
  let spans := page_spans page in
  let x_clusters := cluster_positions (map Span.x spans) 5 in
  let y_clusters := cluster_positions (map Span.y spans) 3 in
  exists grid0 : Grid,
    assign_spans spans x_clusters y_clusters
      (map (fun _ => map (fun _ => []) x_clusters) y_clusters) = Some grid0
    /\ forall lines page_idx,
        process_page lines page_idx page
        = Some (lines ++ page_break page_idx
                      ++ flat_map (row_lines (length x_clusters))
                                  (map (map sort_by_x) grid0)
                      ++ [[]]).
Proof.
  intros Hne spans x_clusters y_clusters.
  assert (Hx : x_clusters <> []).
  { apply cluster_positions_nonempty. subst spans.
    destruct (page_spans page); [congruence|discriminate]. }
  assert (Hy : y_clusters <> []).
  { apply cluster_positions_nonempty. subst spans.
    destruct (page_spans page); [congruence|discriminate]. }
  destruct (assign_spans_ok x_clusters y_clusters spans Hx Hy _
              (empty_grid_shape x_clusters y_clusters))
    as [grid0 [Hassign _]].
  exists grid0. split; [exact Hassign|].
  intros lines page_idx.
  unfold process_page. fold (page_spans page). fold spans.
  rewrite page_break_append.
  assert (Hmatch : forall (B : Type) (l : list Span.t) (a b : B),
             l <> [] -> match l with [] => a | _ :: _ => b end = b)
    by (intros B [|? ?] a b Hl; congruence).
  rewrite Hmatch by exact Hne.
  subst x_clusters y_clusters.
  rewrite Hassign, emit_rows_lines. unfold append.
  now rewrite <- !app_assoc.
Qed.

(** X13: on a page with at least one span the cells of the grid that is
    written out hold, taken together, exactly the spans of the page, each
    span once: none is lost and none is repeated, also when the fallback
    index is used; and inside every cell the spans stand in ascending x. *)
Theorem grid_keeps_every_span
    (page : Page.t) (Hspans : extract_all_spans page <> []) :
  let spans := page_spans page in
  let x_clusters := cluster_positions (map Span.x spans) 5 in
  exists grid : Grid,
    (forall lines page_idx,
        process_page lines page_idx page
        = Some (lines ++ page_break page_idx
                      ++ flat_map (row_lines (length x_clusters)) grid
                      ++ [[]]))
    /\ Permutation (concat (concat grid)) spans
    /\ Forall (Forall (Sorted (fun a b => Span.x a <= Span.x b))) grid.
Proof.
  intros spans x_clusters.
  assert (Hne : page_spans page <> []) by now rewrite page_spans_nil.
  destruct (process_page_sorted_grid page Hne) as [grid0 [Hassign Hlines]].
  exists (map (map sort_by_x) grid0).
  split; [exact Hlines|]. split.
  - rewrite sorted_grid_perm.
    rewrite (assign_spans_perm _ _ _ _ _ Hassign).
    now rewrite empty_grid_concat.
  - apply Forall_forall. intros row Hrow. apply in_map_iff in Hrow.
    destruct Hrow as [row0 [<- _]].
    apply Forall_forall. intros cell Hcell. apply in_map_iff in Hcell.
    destruct Hcell as [cell0 [<- _]]. apply sort_by_x_sorted.
Qed.

Lemma grid_keeps_every_span_witness :
  extract_all_spans drifting_page <> []
  /\ exists grid : Grid,
      process_page [] 0 drifting_page
      = Some (flat_map (row_lines 2) grid ++ [[]])
      /\ Permutation (concat (concat grid)) (page_spans drifting_page).
Proof.
  assert (Hspans : extract_all_spans drifting_page <> [])
    by (vm_compute; discriminate).
  split; [exact Hspans|].
  destruct (grid_keeps_every_span drifting_page Hspans)
    as [grid [Hlines [Hperm _]]].
  exists grid. split; [exact (Hlines [] 0%nat)|exact Hperm].
Defined.

(** ** The whole document *)

Lemma indented_line_no_break rest : is_page_break (chr " " :: rest) = false.
Proof.
  unfold is_page_break.
  destruct (str_eqb (chr " " :: rest) (of_string "#pagebreak()")) eqn:E;
    [|reflexivity].
  apply str_eqb_eq in E. discriminate E.
Qed.

Lemma cell_line_no_break cell : is_page_break (cell_line cell) = false.
Proof.
  destruct cell as [|span cell]; [reflexivity|].
  apply indented_line_no_break.
Qed.

Lemma row_lines_no_break columns row :
  filter is_page_break (row_lines columns row) = [].
Proof.
  unfold row_lines. destruct (forallb is_empty row); [reflexivity|].
  unfold grid_block. cbn [app filter].
  change (of_string "  columns: " ++ str_of_nat columns ++ of_string ",")
    with (chr " " :: (of_string " columns: " ++ str_of_nat columns
                                ++ of_string ",")).
  rewrite indented_line_no_break.
  change (is_page_break (of_string "#grid(")) with false.
  change (is_page_break (of_string "  gutter: 1em,")) with false.
  cbn iota. rewrite filter_app. cbn [filter].
  change (is_page_break (of_string ")")) with false. cbn iota.
  rewrite app_nil_r.
  induction row as [|cell row IH]; [reflexivity|].
  cbn [map filter]. now rewrite cell_line_no_break.
Qed.

Lemma grid_lines_no_break columns (grid : Grid) :
  filter is_page_break (flat_map (row_lines columns) grid ++ [[]]) = [].
Proof.
  rewrite filter_app. cbn [filter].
  change (is_page_break []) with false. cbn iota. rewrite app_nil_r.
  induction grid as [|row grid IH]; [reflexivity|].
  cbn [flat_map]. now rewrite filter_app, row_lines_no_break, IH.
Qed.

Lemma process_page_body page :
  exists body,
    filter is_page_break body = []
    /\ forall lines page_idx,
        process_page lines page_idx page
        = Some (lines ++ page_break page_idx ++ body).
Proof.
  destruct (page_spans page) as [|span rest] eqn:E.
  - exists []. split; [reflexivity|]. intros lines page_idx.
    rewrite app_nil_r. now apply process_page_empty.
  - assert (Hne : page_spans page <> []) by (rewrite E; discriminate).
    destruct (process_page_grid page Hne) as [grid [_ [_ [_ Hlines]]]].
    eexists. split; [|intros lines page_idx; apply Hlines].
    apply grid_lines_no_break.
Qed.

Lemma process_pages_breaks doc :
  exists rest_lines,
    length (filter is_page_break rest_lines) = length doc
    /\ forall lines page_idx,
        (0 < page_idx)%nat ->
        process_pages lines page_idx doc = Some (lines ++ rest_lines).
Proof.
  induction doc as [|page doc [rest_lines [Hcount IH]]].
  - exists []. split; [reflexivity|]. intros lines page_idx _.
    cbn [process_pages]. now rewrite app_nil_r.
  - destruct (process_page_body page) as [body [Hbody Hpage]].
    exists (page_break 1 ++ body ++ rest_lines). split.
    + rewrite !filter_app, Hbody. cbn [app].
      change (filter is_page_break (page_break 1))
        with [of_string "#pagebreak()"].
      cbn [app length]. now rewrite Hcount.
    + intros lines page_idx Hidx. cbn [process_pages]. rewrite Hpage.
      rewrite IH by lia.
      replace (page_break page_idx) with (page_break 1).
      * now rewrite <- !app_assoc.
      * unfold page_break. destruct page_idx; [lia|reflexivity].
Qed.

(** X14: for every document the page loop runs to its end, no grid lookup
    failing; the lines begin with the six header lines, and after them there
    are exactly as many page-break lines as there are pages after the first,
    empty pages included; the returned text is the lines joined by
    newlines. *)
Theorem generate_typst_header_and_breaks (font : str) (doc : list Page.t) :
  exists body,
    generate_typst_lines font doc = Some (header font ++ body)
    /\ length (header font) = 6%nat
    /\ length (filter is_page_break body) = (length doc - 1)%nat
    /\ generate_typst_from_pdf font doc
       = Some (join [10%N] (header font ++ body)).
Proof.
  unfold generate_typst_from_pdf, generate_typst_lines.
  assert (Hsix : length (header font) = 6%nat) by reflexivity.
  destruct doc as [|page doc].
  - exists []. cbn [process_pages option_map]. rewrite app_nil_r.
    repeat split; assumption || reflexivity.
  - destruct (process_page_body page) as [body [Hbody Hpage]].
    destruct (process_pages_breaks doc) as [rest_lines [Hcount Hrest]].
    exists (body ++ rest_lines).
    cbn [process_pages]. rewrite Hpage, Hrest by lia.
    change (page_break 0) with (@nil str). cbn [app option_map].
    rewrite <- !app_assoc.
    split; [reflexivity|]. split; [exact Hsix|]. split.
    + rewrite filter_app, Hbody. cbn [app length]. lia.
    + reflexivity.
Qed.

(** ** Which glyph the bullet branch can remove *)

Lemma lstrip_app_nonblank text more :
  forallb isspace text = false -> lstrip (text ++ more) = lstrip text ++ more.
Proof.
  induction text as [|c text IH]; [discriminate|].
  cbn [forallb app lstrip]. destruct (isspace c); [exact IH|reflexivity].
Qed.

Lemma lstrip_first text :
  forallb isspace text = false ->
  exists c rest, lstrip text = c :: rest /\ isspace c = false.
Proof.
  induction text as [|c text IH]; [discriminate|].
  cbn [forallb lstrip]. destruct (isspace c) eqn:E; [exact IH|].
  intros _. now exists c, text.
Qed.

Lemma lstrip_snoc_keeps text c :
  isspace c = false -> exists kept, lstrip (text ++ [c]) = kept ++ [c].
Proof.
  intros Hc. induction text as [|d text IH]; cbn [app lstrip].
  - rewrite Hc. now exists [].
  - destruct (isspace d); [exact IH|]. now exists (d :: text).
Qed.

Lemma rstrip_first c rest :
  isspace c = false -> exists kept, rstrip (c :: rest) = c :: kept.
Proof.
  intros Hc. unfold rstrip. cbn [rev].
  destruct (lstrip_snoc_keeps (rev rest) c Hc) as [kept ->].
  rewrite rev_app_distr. now exists (rev kept).
Qed.

Lemma strip_first text more :
  forallb isspace text = false ->
  exists c kept kept',
    isspace c = false
    /\ strip text = c :: kept /\ strip (text ++ more) = c :: kept'.
Proof.
  intros Hblank. unfold strip.
  rewrite (lstrip_app_nonblank text more Hblank).
  destruct (lstrip_first text Hblank) as [c [rest [-> Hc]]].
  destruct (rstrip_first c rest Hc) as [kept ->].
  cbn [app]. destruct (rstrip_first c (rest ++ more) Hc) as [kept' ->].
  now exists c, kept, kept'.
Qed.

Lemma startswith_nil text : startswith text [] = true.
Proof. now destruct text. Qed.

Lemma str_eqb_refl a : str_eqb a a = true.
Proof. now apply str_eqb_eq. Qed.

(** X15: for a cell whose first span has a text that is not blank, as all
    extracted spans have, the rendering is decided by the stripped text of
    that first span alone: when it begins with the glyph U+2022 the cell is
    the list marker followed by the formatted spans, without the first span
    exactly when its stripped text is that glyph alone; otherwise all spans
    are formatted and nothing is added.  A first span that is a black circle
    or a white bullet is therefore never removed. *)
Theorem cell_content_by_first_span
    (first : Span.t) (rest : list Span.t)
    (Hblank : forallb isspace (Span.text first) = false) :
  cell_content (first :: rest)
  = if startswith (strip (Span.text first)) [bullet]
    then of_string "- "
         ++ concat (map format_span
                        (if str_eqb (strip (Span.text first)) [bullet]
                         then rest else first :: rest))
    else concat (map format_span (first :: rest)).
Proof.
  unfold cell_content. cbn [map concat].
  destruct (strip_first (Span.text first) (concat (map Span.text rest)) Hblank)
    as [c [kept [kept' [Hc [Hstrip Hstrip']]]]].
  rewrite Hstrip'. rewrite bullet_loop_first. rewrite Hstrip.
  cbn [startswith]. rewrite !startswith_nil, !andb_true_r.
  destruct (N.eqb_spec c bullet) as [->|Hneq]; [|reflexivity].
  unfold is_bullet_glyph.
  destruct kept as [|k kept].
  - rewrite str_eqb_refl. reflexivity.
  - assert (Hno : forall g, str_eqb (bullet :: k :: kept) [g] = false).
    { intros g. destruct (str_eqb (bullet :: k :: kept) [g]) eqn:E;
        [|reflexivity].
      apply str_eqb_eq in E. discriminate E. }
    now rewrite !Hno.
Qed.

Lemma cell_content_by_first_span_witness :
  forallb isspace [black_circle] = false
  /\ cell_content black_circle_cell
     = concat (map format_span black_circle_cell).
Proof.
  assert (Hblank : forallb isspace [black_circle] = false) by reflexivity.
  split; [exact Hblank|].
  exact (cell_content_by_first_span
           (Span.mk [black_circle] 0 0 5 10 false false false)
           [Span.mk (of_string " Item one") 5 0 40 10 false false false]
           Hblank).
Defined.
